(** * Product Tree plugin: the Mermaid graph builder of [tree.js]

    A shallow embedding of [escape], [nodeLabel], [id], [walk] and
    [buildMermaid] from
    [src/plugins/product_tree/static/product_tree/tree.js], over a small
    model of the JavaScript values the builder reads.

    The builder receives the result of [res.json()]: objects and arrays
    are heap cells reached through references, so that object identity,
    sharing and cyclic object graphs can all be expressed.  The heap is
    only read by the builder.  Recursion is bounded by a fuel argument,
    the depth of nested calls still available, as on the call stack of
    an engine; a run that exhausts every amount of fuel returns on no
    call stack, however deep. *)

From Stdlib Require Import Ascii String ZArith.
From stdpp Require Import base option list gmap strings pretty.

(** ** JavaScript values *)

(** Locations of heap cells. *)
Definition loc := nat.

(** Numbers are restricted to the integers, printed in plain decimal
    notation (ids and quantities in the safe integer range).  Strings
    are sequences of bytes; the characters the builder looks for are
    single bytes. *)
Inductive val :=
  | VUndef
  | VNull
  | VBool (b : bool)
  | VNum (z : Z)
  | VStr (s : string)
  | VRef (l : loc).

Global Instance val_eq_dec : EqDecision val.
Proof. solve_decision. Defined.

(** A heap cell is an object (its own properties, keys distinct) or an
    array (its elements, dense).  A location without a cell behaves as
    an object without properties. *)
Inductive cell :=
  | CObj (fields : list (string * val))
  | CArr (elems : list val).

Abbreviation heap := (gmap loc cell).

(** ** Outcomes: a returned value, a thrown [TypeError], or fuel exhausted *)

Inductive outcome (A : Type) :=
  | Ret (a : A)
  | Throw
  | OutOfFuel.
Arguments Ret {A} a.
Arguments Throw {A}.
Arguments OutOfFuel {A}.

Global Instance outcome_ret : MRet outcome := @Ret.
Global Instance outcome_bind : MBind outcome := λ A B f m,
  match m with
  | Ret a => f a
  | Throw => Throw
  | OutOfFuel => OutOfFuel
  end.

(** The run returned a value. *)
Definition returns {A} (m : outcome A) : bool :=
  match m with Ret _ => true | _ => false end.

(** ** The fragment of JavaScript the builder uses *)

(** [!!v]: everything is truthy except [undefined], [null], [false],
    [0] and the empty string. *)
Definition truthy (v : val) : bool :=
  match v with
  | VUndef | VNull => false
  | VBool b => b
  | VNum z => negb (z =? 0)%Z
  | VStr s => negb (String.eqb s "")
  | VRef _ => true
  end.

(** [v != null] is false exactly for [null] and [undefined]. *)
Definition nullish (v : val) : bool :=
  match v with VUndef | VNull => true | _ => false end.

(** Lookup of an own property. *)
Fixpoint assoc (k : string) (fs : list (string * val)) : option val :=
  match fs with
  | [] => None
  | (k', v) :: fs' => if String.eqb k k' then Some v else assoc k fs'
  end.

(** [v.k] for the property names the builder reads ([id], [name], [ipn],
    [cycle], [substitutes], [children], [quantity]): a [TypeError] on
    [null] and [undefined], the own property of an object, and
    [undefined] on primitives and arrays, which have none of these
    properties. *)
Definition get (σ : heap) (v : val) (k : string) : outcome val :=
  match v with
  | VUndef | VNull => Throw
  | VRef l =>
      match σ !! l with
      | Some (CObj fs) => Ret (default VUndef (assoc k fs))
      | _ => Ret VUndef
      end
  | _ => Ret VUndef
  end.

(** [Array.isArray(v)], giving the elements. *)
Definition as_array (σ : heap) (v : val) : option (list val) :=
  match v with
  | VRef l => match σ !! l with Some (CArr es) => Some es | _ => None end
  | _ => None
  end.

(** [Array.prototype.join]: [undefined] and [null] elements print as
    the empty string, the others through [ToString]. *)
Definition join_elem (ts : val → outcome string) (v : val) : outcome string :=
  if nullish v then Ret "" else ts v.

Fixpoint join (ts : val → outcome string) (sep : string) (es : list val)
  : outcome string :=
  match es with
  | [] => Ret ""
  | e :: es' =>
      s ← join_elem ts e;
      match es' with
      | [] => Ret s
      | _ => t ← join ts sep es'; Ret (s +:+ sep +:+ t)
      end
  end.

(** [ToString(v)], as applied by [String(v)] and by template literals;
    [arr] prints the elements of an array.  An object prints as
    [[object Object]] through [Object.prototype.toString], unless it has
    an own property [toString]: data is never callable, and [valueOf]
    then yields the object itself, so the conversion throws. *)
Definition to_string_with (arr : list val → outcome string) (σ : heap)
  (v : val) : outcome string :=
  match v with
  | VUndef => Ret "undefined"
  | VNull => Ret "null"
  | VBool true => Ret "true"
  | VBool false => Ret "false"
  | VNum z => Ret (pretty z)
  | VStr s => Ret s
  | VRef l =>
      match σ !! l with
      | Some (CArr es) => arr es
      | Some (CObj fs) =>
          match assoc "toString" fs with
          | Some _ => Throw
          | None => Ret "[object Object]"
          end
      | None => Ret "[object Object]"
      end
  end.

(** An array prints as the join of its elements with a comma; only this
    conversion recurses (arrays nested in arrays), and only it consumes
    fuel. *)
Fixpoint array_to_string (fuel : nat) (σ : heap) (es : list val)
  : outcome string :=
  match fuel with
  | O => OutOfFuel
  | S fuel' => join (to_string_with (array_to_string fuel' σ) σ) "," es
  end.

Definition to_string (fuel : nat) (σ : heap) (v : val) : outcome string :=
  to_string_with (array_to_string fuel σ) σ v.

(** ** [escape] *)

(** The double quote and the line break. *)
Definition dquote : ascii := "034"%char.
Definition newline : string := String "010"%char "".

(** [s.replace(/c/g, r)] for a one-character pattern. *)
Fixpoint replace_all (c : ascii) (r : string) (s : string) : string :=
  match s with
  | EmptyString => EmptyString
  | String a s' =>
      if Ascii.eqb a c then r +:+ replace_all c r s'
      else String a (replace_all c r s')
  end.

(** The three [replace] calls of [escape].  The first replacement
    string is written, between single quotes, as a backslash followed by
    a double quote: inside a JavaScript string literal that escape
    sequence denotes the one-character string holding a double quote. *)
Definition escape_str (s : string) : string :=
  replace_all "]"%char ")"
    (replace_all "["%char "("
       (replace_all dquote (String dquote "") s)).

(** [escape(s)]: [String(s || '')] followed by the replacements. *)
Definition escape (fuel : nat) (σ : heap) (s : val) : outcome string :=
  t ← to_string fuel σ (if truthy s then s else VStr "");
  mret (escape_str t).

(** ** [buildMermaid] *)

(** Each buffered line keeps, next to its text, a ghost tag recording
    which [lines.push] produced it and for which node objects.  The tag
    is erased when the lines are joined. *)
Inductive tag :=
  | THeader
  | TDecl (n : val)
  | TEdge (n child : val).

Global Instance tag_eq_dec : EqDecision tag.
Proof. solve_decision. Defined.

Record line := Line { line_tag : tag; line_text : string }.

Global Instance line_eq_dec : EqDecision line.
Proof. solve_decision. Defined.

(** The two variables closed over by [walk]: the array [lines] and the
    set [seen], kept in insertion order.  Set membership is
    [SameValueZero], which on this value model is equality: primitives
    compare by value, objects and arrays by reference. *)
Record state := State { lines : list line; seen : list val }.

(** [lines.push(s)], [seen.has(i)] and [seen.add(i)]. *)
Definition push (t : tag) (s : string) (st : state) : state :=
  State (lines st ++ [Line t s]) (seen st).

Definition seen_has (i : val) (st : state) : bool := bool_decide (i ∈ seen st).

Definition seen_add (i : val) (st : state) : state :=
  State (lines st) (if seen_has i st then seen st else seen st ++ [i]).

(** [n.substitutes.map(s => s.name || s.ipn || s.id)], entry by entry. *)
Definition subst_entry (σ : heap) (s : val) : outcome val :=
  a ← get σ s "name";
  if truthy a then mret a else
  b ← get σ s "ipn";
  if truthy b then mret b else
  get σ s "id".

(** [Array.prototype.map] with a callback that may throw. *)
Fixpoint map_entries (f : val → outcome val) (es : list val)
  : outcome (list val) :=
  match es with
  | [] => Ret []
  | e :: es' => v ← f e; vs ← map_entries f es'; Ret (v :: vs)
  end.

(** [nodeLabel(n)]: the constants [name], [ipn], [cycle] and
    [substitutes] in the order the source computes them, then the
    template that concatenates them. *)
Definition nodeLabel (fuel : nat) (σ : heap) (n : val) : outcome string :=
  nm ← get σ n "name";
  let name := if truthy nm then nm else VStr "(unnamed)" in
  iv ← get σ n "ipn";
  ipn ← (if truthy iv
         then s ← to_string fuel σ iv; mret (newline +:+ "IPN: " +:+ s)
         else mret "");
  cv ← get σ n "cycle";
  let cycle := if truthy cv then newline +:+ "↻ cycle" else "" in
  sv ← get σ n "substitutes";
  substitutes ← match as_array σ sv with
                | Some ((_ :: _) as es) =>
                    vs ← map_entries (subst_entry σ) es;
                    s ← join (to_string fuel σ) ", " vs;
                    mret (newline +:+ "Subs: " +:+ s)
                | _ => mret ""
                end;
  ns ← to_string fuel σ name;
  mret (ns +:+ ipn +:+ substitutes +:+ cycle).

(** [id(n)]. *)
Definition id (fuel : nat) (σ : heap) (n : val) : outcome string :=
  i ← get σ n "id";
  s ← to_string fuel σ i;
  mret ("P" +:+ s).

(** The constant [connector] of the callback, from [child.cycle]. *)
Definition connector (cyc : val) : string :=
  if truthy cyc then "-.->" else "-->".

(** The declaration pushed by [walk] for a node not yet in [seen]. *)
Definition declare (fuel : nat) (σ : heap) (n : val) (st : state)
  : outcome state :=
  p ← id fuel σ n;
  lbl ← nodeLabel fuel σ n;
  e ← escape fuel σ (VStr lbl);
  i ← get σ n "id";
  mret (seen_add i
          (push (TDecl n)
             (p +:+ "[" +:+ String dquote e +:+ String dquote "]") st)).

(** [Array.prototype.forEach] on the elements of an array. *)
Fixpoint for_each (f : val → state → outcome state) (es : list val)
  (st : state) : outcome state :=
  match es with
  | [] => Ret st
  | e :: es' => st' ← f e st; for_each f es' st'
  end.

(** The receiver of [.forEach] in [(n.children || []).forEach(...)]:
    the elements when it is an array; calling the missing method of
    anything else throws. *)
Definition children_of (σ : heap) (n : val) : outcome (list val) :=
  ch ← get σ n "children";
  if truthy ch then
    match as_array σ ch with
    | Some es => Ret es
    | None => Throw
    end
  else Ret [].

(** The constant [qty] of the callback: the annotation of the edge line. *)
Definition qty (fuel : nat) (σ : heap) (child : val) : outcome string :=
  q ← get σ child "quantity";
  if nullish q then mret ""
  else s ← to_string fuel σ q; mret ("|" +:+ s +:+ "|").

(** The edge line pushed for a child that passed the guard. *)
Definition edge_line (fuel : nat) (σ : heap) (n child : val)
  : outcome string :=
  ann ← qty fuel σ child;
  cyc ← get σ child "cycle";
  p ← id fuel σ n;
  c ← id fuel σ child;
  mret (p +:+ " " +:+ connector cyc +:+ ann +:+ " " +:+ c).

(** The callback given to [forEach]; [rec] is the recursive call. *)
Definition visit (rec : val → state → outcome state) (fuel : nat)
  (σ : heap) (n child : val) (st : state) : outcome state :=
  if truthy child then
    ci ← get σ child "id";
    if truthy ci then
      l ← edge_line fuel σ n child;
      let st' := push (TEdge n child) l st in
      cyc ← get σ child "cycle";
      if truthy cyc then Ret st' else rec child st'
    else Ret st
  else Ret st.

(** [walk(n)]. *)
Fixpoint walk (fuel : nat) (σ : heap) (n : val) (st : state)
  : outcome state :=
  match fuel with
  | O => OutOfFuel
  | S fuel' =>
      if truthy n then
        i ← get σ n "id";
        if truthy i then
          st1 ← (if seen_has i st then Ret st else declare fuel' σ n st);
          es ← children_of σ n;
          for_each (visit (walk fuel' σ) fuel' σ n) es st1
        else Ret st
      else Ret st
  end.

(** [lines = ['graph TD']] and [seen = new Set()]. *)
Definition init : state := State [Line THeader "graph TD"] [].

(** [lines.join('\n')] on an array of strings. *)
Fixpoint join_lines (ls : list string) : string :=
  match ls with
  | [] => ""
  | [l] => l
  | l :: ls' => l +:+ newline +:+ join_lines ls'
  end.

(** The lines buffered by [buildMermaid] before they are joined. *)
Definition build_lines (fuel : nat) (σ : heap) (node : val)
  : outcome (list line) :=
  st ← walk fuel σ node init; mret (lines st).

(** [buildMermaid(node)]. *)
Definition buildMermaid (fuel : nat) (σ : heap) (node : val)
  : outcome string :=
  ls ← build_lines fuel σ node; mret (join_lines (line_text <$> ls)).

(** ** Inputs parsed from JSON

    [res.json()] builds the input from a JSON text: every object and
    array of the text becomes a fresh heap cell, so the parsed input is
    a tree without sharing. *)

#[warnings="-register-all"]
Inductive json :=
  | JNull
  | JBool (b : bool)
  | JNum (z : Z)
  | JStr (s : string)
  | JArr (es : list json)
  | JObj (fs : list (string * json)).

(** Allocation of the components of an array or of an object, in
    order, with [f] allocating one component. *)
Definition alloc_list (f : json → heap * loc → val * (heap * loc))
  : list json → heap * loc → list val * (heap * loc) :=
  fix go es s :=
    match es with
    | [] => ([], s)
    | e :: es' =>
        let '(v, s1) := f e s in
        let '(vs, s2) := go es' s1 in
        (v :: vs, s2)
    end.

Definition alloc_fields (f : json → heap * loc → val * (heap * loc))
  : list (string * json) → heap * loc → list (string * val) * (heap * loc) :=
  fix go fs s :=
    match fs with
    | [] => ([], s)
    | (k, e) :: fs' =>
        let '(v, s1) := f e s in
        let '(vs, s2) := go fs' s1 in
        ((k, v) :: vs, s2)
    end.

(** Allocation of a parsed value: components first, then the cell that
    holds them, at the next free location. *)
Fixpoint alloc (j : json) (s : heap * loc) : val * (heap * loc) :=
  match j with
  | JNull => (VNull, s)
  | JBool b => (VBool b, s)
  | JNum z => (VNum z, s)
  | JStr t => (VStr t, s)
  | JArr es =>
      let '(vs, (σ, next)) := alloc_list alloc es s in
      (VRef next, (<[next := CArr vs]> σ, S next))
  | JObj fs =>
      let '(vs, (σ, next)) := alloc_fields alloc fs s in
      (VRef next, (<[next := CObj vs]> σ, S next))
  end.

Definition load (j : json) : val * heap :=
  let '(v, (σ, _)) := alloc j (∅, O) in (v, σ).

(** [buildMermaid(await res.json())]. *)
Definition build_json (fuel : nat) (j : json) : outcome string :=
  let '(v, σ) := load j in buildMermaid fuel σ v.

(** ** Vocabulary of the statements *)

(** The guard [!n || !n.id] of [walk] and of the [forEach] callback
    fails: [n] is a node carrying an id. *)
Definition has_id (σ : heap) (n : val) : bool :=
  truthy n && match get σ n "id" with Ret i => truthy i | _ => false end.

(** [n.cycle] is truthy. *)
Definition cycle_marked (σ : heap) (n : val) : bool :=
  match get σ n "cycle" with Ret c => truthy c | _ => false end.

(** The value of [n.id] ([undefined] where the read throws). *)
Definition id_val (σ : heap) (n : val) : val :=
  match get σ n "id" with Ret i => i | _ => VUndef end.

(** The ids declared by a list of lines, in order. *)
Definition decl_ids (σ : heap) (ls : list line) : list val :=
  omap (λ l, match line_tag l with
             | TDecl n => Some (id_val σ n)
             | _ => None
             end) ls.

(** Number of lines carrying a given tag. *)
Definition count_tag (t : tag) (ls : list line) : nat :=
  length (filter (λ l, line_tag l = t) ls).

(** The tag of an edge line into the node [c]. *)
Definition into (c : val) (t : tag) : Prop :=
  match t with TEdge _ c' => c' = c | _ => False end.

Global Instance into_dec c t : Decision (into c t).
Proof. destruct t; simpl; apply _. Defined.

(** Number of edge lines that lead into the node [c]. *)
Definition count_into (c : val) (ls : list line) : nat :=
  length (filter (λ l, into c (line_tag l)) ls).

(** Number of occurrences of [d] in an array. *)
Definition count_occ (d : val) (es : list val) : nat :=
  length (filter (λ e, e = d) es).

(** The object graph under a node: [reach σ n m] when [m] is [n] or an
    entry of the [children] array of a node under [n]. *)
Inductive reach (σ : heap) : val → val → Prop :=
  | reach_refl n : reach σ n n
  | reach_step n es c m :
      children_of σ n = Ret es → c ∈ es → reach σ c m → reach σ n m.

(** The values a cell stores. *)
Definition cell_vals (c : cell) : list val :=
  match c with
  | CObj fs => fs.*2
  | CArr es => es
  end.

(** An acyclic heap: some rank strictly decreases along every reference
    stored in a cell. *)
Definition ranked (σ : heap) (rank : loc → nat) : Prop :=
  ∀ l c l', σ !! l = Some c → VRef l' ∈ cell_vals c → rank l' < rank l.

(** The fuel a value calls for: one more than its rank for a
    reference, none for a primitive. *)
Definition need (rank : loc → nat) (v : val) : nat :=
  match v with VRef l => S (rank l) | _ => O end.

(** Counting by id rather than by node object.  [edge_between σ x y]
    holds of the edge lines from a node with id [x] to an entry with id
    [y]; [solid_edge_into σ x] of the edge lines into an entry with id
    [x] that is not cycle-marked, the edges [walk] follows. *)
Definition b2n (b : bool) : nat := if b then 1 else 0.

Definition edge_between (σ : heap) (x y : val) (t : tag) : bool :=
  match t with
  | TEdge n e => bool_decide (id_val σ n = x) && bool_decide (id_val σ e = y)
  | _ => false
  end.

Definition solid_edge_into (σ : heap) (x : val) (t : tag) : bool :=
  match t with
  | TEdge _ e => bool_decide (id_val σ e = x) && negb (cycle_marked σ e)
  | _ => false
  end.

Definition count_lines (P : tag → bool) (ls : list line) : nat :=
  length (filter (λ l, P (line_tag l) = true) ls).

(** Entries of a [children] array that pass the guard and carry the id
    [y]. *)
Definition count_children (σ : heap) (y : val) (es : list val) : nat :=
  length (filter (λ e, has_id σ e && bool_decide (id_val σ e = y) = true) es).

(** Number of times [walk] is entered on a node with id [x]: once per
    solid edge line into such a node, and once more if the root is
    one. *)
Definition traversals (σ : heap) (root x : val) (ls : list line) : nat :=
  count_lines (solid_edge_into σ x) ls
  + b2n (has_id σ root && bool_decide (id_val σ root = x)).

(** The nodes under [root] that [walk] is entered on. *)
Definition entered (σ : heap) (root n : val) : Prop :=
  reach σ root n ∧ (n = root ∨ cycle_marked σ n = false).

(** ** Further vocabulary of the statements and of their proofs *)

(** [1] when [n] is the node [c], and [0] otherwise. *)
Definition is_node (c n : val) : nat := if decide (n = c) then 1 else 0.

(** An edge line holds the text [edge_line] computes for its two
    nodes, and leads to an entry that passed the guard. *)
Definition edge_ok (σ : heap) (l : line) : Prop :=
  match line_tag l with
  | TEdge n c =>
      has_id σ c = true ∧ ∃ fuel, edge_line fuel σ n c = Ret (line_text l)
  | _ => True
  end.

(** What [escape] amounts to: a character-wise map that turns square
    brackets into parentheses. *)
Fixpoint string_map (f : ascii → ascii) (s : string) : string :=
  match s with
  | EmptyString => EmptyString
  | String a s' => String (f a) (string_map f s')
  end.

Definition unbracket (a : ascii) : ascii :=
  if Ascii.eqb a "["%char then "("%char
  else if Ascii.eqb a "]"%char then ")"%char
  else a.

(** Only the root and nodes that are not cycle-marked are ever
    expanded: they are the sources of all declarations and edges. *)
Definition source_ok (σ : heap) (root : val) (l : line) : Prop :=
  match line_tag l with
  | TDecl n | TEdge n _ => n = root ∨ cycle_marked σ n = false
  | THeader => True
  end.

(** The declared ids are the seen set, in insertion order. *)
Definition decl_seen (σ : heap) (st : state) : Prop :=
  decl_ids σ (lines st) = seen st ∧ NoDup (seen st).

(** Every declared node lies under the root and carries an id. *)
Definition decl_ok (σ : heap) (root : val) (l : line) : Prop :=
  match line_tag l with
  | TDecl n => reach σ root n
  | _ => True
  end.

(** An executable enumeration of the entries under a node, to settle
    [reach] on concrete heaps by computation. *)
Fixpoint nodes_under (fuel : nat) (σ : heap) (n : val) : option (list val) :=
  match fuel with
  | O => None
  | S fuel' =>
      match children_of σ n with
      | Ret es => ns ← mapM (nodes_under fuel' σ) es; Some (n :: mjoin ns)
      | _ => Some [n]
      end
  end.

(** A run that does not exhaust its fuel: it returns or it throws. *)
Definition terminates {A} (m : outcome A) : Prop := m ≠ OutOfFuel.

(** A declaration line holds the diagram id of its node, and between
    the brackets and quotes the node's label with its square brackets
    turned into parentheses. *)
Definition decl_text_ok (σ : heap) (l : line) : Prop :=
  match line_tag l with
  | TDecl n =>
      has_id σ n = true ∧
      ∃ fuel p lbl,
        id fuel σ n = Ret p ∧ nodeLabel fuel σ n = Ret lbl ∧
        line_text l
        = p +:+ "[" +:+ String dquote (string_map unbracket lbl)
            +:+ String dquote "]"
  | _ => True
  end.

(** Induction on parsed values, through their arrays and objects. *)
Section json_induction.
Context (P : json → Prop).
Hypothesis P_null : P JNull.
Hypothesis P_bool : ∀ b, P (JBool b).
Hypothesis P_num : ∀ z, P (JNum z).
Hypothesis P_str : ∀ s, P (JStr s).
Hypothesis P_arr : ∀ es, Forall P es → P (JArr es).
Hypothesis P_obj : ∀ fs, Forall (λ kv, P kv.2) fs → P (JObj fs).

Fixpoint json_nested_ind (j : json) : P j :=
  match j with
  | JNull => P_null
  | JBool b => P_bool b
  | JNum z => P_num z
  | JStr s => P_str s
  | JArr es =>
      P_arr es
        ((fix go (es : list json) : Forall P es :=
            match es with
            | [] => Forall_nil_2 P
            | e :: es' => Forall_cons_2 P e es' (json_nested_ind e) (go es')
            end) es)
  | JObj fs =>
      P_obj fs
        ((fix go (fs : list (string * json)) : Forall (λ kv, P kv.2) fs :=
            match fs with
            | [] => Forall_nil_2 _
            | kv :: fs' =>
                Forall_cons_2 (λ kv, P kv.2) kv fs'
                  (json_nested_ind kv.2) (go fs')
            end) fs)
  end.
End json_induction.

(** The allocator's invariant: cells sit below the next free location
    and only refer to cells below themselves. *)
Definition alloc_wf (s : heap * loc) : Prop :=
  ∀ l c, s.1 !! l = Some c →
         l < s.2 ∧ Forall (λ v, need (λ l, l) v ≤ l) (cell_vals c).

(** What the allocation of one value preserves and ensures. *)
Definition alloc_ok (j : json) : Prop :=
  ∀ s, alloc_wf s →
       alloc_wf (alloc j s).2 ∧ s.2 ≤ (alloc j s).2.2 ∧
       need (λ l, l) (alloc j s).1 ≤ (alloc j s).2.2.

(** [walk_edge σ n c]: a walk of [n] recurses into [c]. *)
Definition walk_edge (σ : heap) (n c : val) : Prop :=
  has_id σ n = true ∧
  ∃ es, children_of σ n = Ret es ∧ c ∈ es ∧
        has_id σ c = true ∧ cycle_marked σ c = false.

(** [m'] is what [m] becomes with more fuel: the same, unless [m] ran
    out of fuel. *)
Definition refines {A} (m m' : outcome A) : Prop := m = OutOfFuel ∨ m = m'.

(** ** Concrete inputs *)

(** The one-character string holding a double quote. *)
Definition dq : string := String dquote "".

(** The lines buffered for a parsed input. *)
Definition build_json_lines (fuel : nat) (j : json) : outcome (list line) :=
  let '(v, σ) := load j in build_lines fuel σ v.

(** The first example of the specification, as written there: each
    entry of [children] wraps the child node in a [child] property. *)
Definition spec_example : json :=
  JObj [("id", JNum 1); ("name", JStr "A");
        ("children",
          JArr [JObj [("quantity", JNum 2);
                      ("child", JObj [("id", JNum 2); ("name", JStr "B");
                                      ("children", JArr [])])]])].

(** The same tree in the shape [walk] reads: the entry of [children] is
    the child node and carries the quantity itself. *)
Definition flat_example : json :=
  JObj [("id", JNum 1); ("name", JStr "A");
        ("children",
          JArr [JObj [("id", JNum 2); ("name", JStr "B");
                      ("quantity", JNum 2); ("children", JArr [])]])].

(** The output the specification gives for its first example. *)
Definition four_lines : string :=
  "graph TD" +:+ newline +:+
  "P1[" +:+ dq +:+ "A" +:+ dq +:+ "]" +:+ newline +:+
  "P1 -->|2| P2" +:+ newline +:+
  "P2[" +:+ dq +:+ "B" +:+ dq +:+ "]".

(** The cycle example of the specification, as written there, and in
    the shape [walk] reads. *)
Definition spec_cycle_example : json :=
  JObj [("id", JNum 1); ("name", JStr "A");
        ("children",
          JArr [JObj [("child",
            JObj [("id", JNum 2); ("name", JStr "B"); ("cycle", JBool true);
                  ("children",
                    JArr [JObj [("child", JObj [("id", JNum 1);
                                                ("name", JStr "A")])]])])]])].

Definition flat_cycle_example : json :=
  JObj [("id", JNum 1); ("name", JStr "A");
        ("children",
          JArr [JObj [("id", JNum 2); ("name", JStr "B"); ("cycle", JBool true);
                      ("children",
                        JArr [JObj [("id", JNum 1); ("name", JStr "A")]])]])].

(** The declaration the specification expects for the cycle-marked
    child of its cycle example. *)
Definition cycle_declaration : string :=
  "P2[" +:+ dq +:+ "B" +:+ newline +:+ "↻ cycle" +:+ dq +:+ "]".

(** A node whose [substitutes] array holds a [null] entry. *)
Definition null_substitute : json :=
  JObj [("id", JNum 1); ("name", JStr "A"); ("substitutes", JArr [JNull])].

(** A node whose name holds a double quote and square brackets. *)
Definition quoted_name : json :=
  JObj [("id", JNum 1); ("name", JStr ("a" +:+ dq +:+ "b[c]"))].

(** The ids [0] and the empty string, and a missing [id]. *)
Definition zero_id : json := JObj [("id", JNum 0); ("name", JStr "Z")].
Definition empty_id : json := JObj [("id", JStr ""); ("name", JStr "E")].
Definition no_id : json := JObj [("name", JStr "N")].

(** The heap of the cycle example: the root is cell 4, its cycle-marked
    child cell 2. *)
Definition cycle_heap : heap := (load flat_cycle_example).2.

(** Two parents sharing a child id: five node objects, four ids. *)
Definition shared_id_example : json :=
  JObj [("id", JNum 1); ("name", JStr "A");
        ("children",
          JArr [JObj [("id", JNum 2); ("name", JStr "B");
                      ("children", JArr [JObj [("id", JNum 4); ("name", JStr "D")]])];
                JObj [("id", JNum 3); ("name", JStr "C");
                      ("children", JArr [JObj [("id", JNum 4); ("name", JStr "D")]])]])].

(** Its heap: the root is cell 7. *)
Definition shared_id_heap : heap := (load shared_id_example).2.

(** A node object shared by two edges of its parent. *)
Definition diamond_heap : heap :=
  list_to_map
    [(0, CObj [("id", VNum 3); ("name", VStr "C")]);
     (1, CArr [VRef 0]);
     (2, CObj [("id", VNum 2); ("name", VStr "B"); ("children", VRef 1)]);
     (3, CArr [VRef 2; VRef 2]);
     (4, CObj [("id", VNum 1); ("name", VStr "A"); ("children", VRef 3)])].

(** The lines buffered for it, from the root in cell 4. *)
Definition diamond_lines : list line :=
  [Line THeader "graph TD";
   Line (TDecl (VRef 4)) ("P1[" +:+ dq +:+ "A" +:+ dq +:+ "]");
   Line (TEdge (VRef 4) (VRef 2)) "P1 --> P2";
   Line (TDecl (VRef 2)) ("P2[" +:+ dq +:+ "B" +:+ dq +:+ "]");
   Line (TEdge (VRef 2) (VRef 0)) "P2 --> P3";
   Line (TDecl (VRef 0)) ("P3[" +:+ dq +:+ "C" +:+ dq +:+ "]");
   Line (TEdge (VRef 4) (VRef 2)) "P1 --> P2";
   Line (TEdge (VRef 2) (VRef 0)) "P2 --> P3"].

(** The heap of the two-node example: the root is cell 3, its child
    cell 1. *)
Definition flat_heap : heap := (load flat_example).2.

(** In parsed JSON the shared part is two objects with the same id. *)
Definition repeated_example : json :=
  JObj [("id", JNum 1); ("name", JStr "A");
        ("children",
          JArr [JObj [("id", JNum 2); ("name", JStr "B");
                      ("children", JArr [JObj [("id", JNum 3); ("name", JStr "C")]])];
                JObj [("id", JNum 2); ("name", JStr "B");
                      ("children", JArr [JObj [("id", JNum 3); ("name", JStr "C")]])]])].

(** Its heap: the root is cell 7. *)
Definition repeated_heap : heap := (load repeated_example).2.

(** ** Vocabulary of the further properties *)

(** The characters of a string. *)
Fixpoint chars (s : string) : list ascii :=
  match s with
  | EmptyString => []
  | String a s' => a :: chars s'
  end.

(** A square bracket. *)
Definition bracket (a : ascii) : bool :=
  Ascii.eqb a "["%char || Ascii.eqb a "]"%char.

(** A run that does not throw. *)
Definition no_throw {A} (m : outcome A) : Prop := m ≠ Throw.

(** What the builder relies on without checking it: a truthy [children]
    property is an array, a [substitutes] array holds neither [null]
    nor [undefined], and no object has an own property [toString]. *)
Definition safe_cell (σ : heap) (c : cell) : bool :=
  match c with
  | CArr _ => true
  | CObj fs =>
      match assoc "children" fs with
      | Some ch => negb (truthy ch) || bool_decide (is_Some (as_array σ ch))
      | None => true
      end
      && match assoc "substitutes" fs with
         | Some sv =>
             match as_array σ sv with
             | Some es => forallb (λ e, negb (nullish e)) es
             | None => true
             end
         | None => true
         end
      && bool_decide (assoc "toString" fs = None)
  end.

Definition safe_heap (σ : heap) : Prop :=
  map_Forall (λ _ c, safe_cell σ c = true) σ.

(** A tree with a missing id, a [null] entry, a primitive entry, a
    falsy id, substitutes of several shapes and a nested array as
    name. *)
Definition malformed_example : json :=
  JObj [("id", JNum 1);
        ("children",
          JArr [JNull;
                JNum 5;
                JObj [("name", JStr "no id")];
                JObj [("id", JNum 0); ("children", JArr [JObj [("id", JNum 9)]])];
                JObj [("id", JStr "b"); ("name", JArr [JNum 1; JArr [JNull; JStr "z"]]);
                      ("quantity", JBool false);
                      ("substitutes",
                        JArr [JObj []; JNum 7; JObj [("ipn", JStr "I")]])];
                JObj [("id", JNum 3); ("children", JNull);
                      ("substitutes", JStr "none")]])].

Definition malformed_heap : heap := (load malformed_example).2.
Definition malformed_root : val := (load malformed_example).1.

(** The declared ids are the seen set, and every edge line stands after
    the declaration of its source's id. *)
Definition sources_declared (σ : heap) (st : state) : Prop :=
  decl_ids σ (lines st) = seen st ∧
  ∀ l1 n c text l2,
    lines st = l1 ++ Line (TEdge n c) text :: l2 →
    id_val σ n ∈ decl_ids σ l1.

(** A root that leads into a cycle it is not part of: the node in cell 4
    has the node in cell 0 as child, which is on a cycle with the node
    in cell 2. *)
Definition lasso_heap : heap :=
  list_to_map
    [(0, CObj [("id", VNum 1); ("name", VStr "A"); ("children", VRef 1)]);
     (1, CArr [VRef 2]);
     (2, CObj [("id", VNum 2); ("name", VStr "B"); ("children", VRef 3)]);
     (3, CArr [VRef 0]);
     (4, CObj [("id", VNum 9); ("children", VRef 5)]);
     (5, CArr [VNull; VRef 0])].

(** The lines buffered for the cycle example, from the root in cell 4. *)
Definition cycle_lines : list line :=
  [Line THeader "graph TD";
   Line (TDecl (VRef 4)) ("P1[" +:+ dq +:+ "A" +:+ dq +:+ "]");
   Line (TEdge (VRef 4) (VRef 2)) "P1 -.-> P2"].



(** The diagram identifiers of the declaration lines, in order. *)
Definition decl_names (σ : heap) (ls : list line) : list (outcome string) :=
  omap (λ l, match line_tag l with
             | TDecl n => Some (id O σ n)
             | _ => None
             end) ls.

(** The diagram identifier made from an id that prints without fuel. *)
Definition name_of_id (σ : heap) (i : val) : outcome string :=
  s ← to_string O σ i; mret ("P" +:+ s).

(** ** [renderMermaidFromEndpoint]

    The caller of [buildMermaid].  What the browser answers is an
    input: whether [document.getElementById] finds the two elements,
    how [fetch] and [res.json()] settle, and whether [window.mermaid]
    is loaded and how its [render] promise settles for a definition.
    The two ids name different elements.
    An error raised by the browser or by mermaid is given by the string
    [String(e)] makes of it. *)

Inductive body :=
  | BadBody (e : string)
  | Body (j : json).

Inductive response :=
  | Rejected (e : string)
  | Response (ok : bool) (status : Z) (b : body).

Inductive rendering :=
  | Rendered (svg : string)
  | RenderFailed (e : string).

Record browser := Browser {
  graph_found : bool;
  err_found : bool;
  answer : response;
  mermaid : option (string → rendering)
}.

(** What an element shows: markup assigned to [innerHTML], or a string
    assigned to [textContent]. *)
Inductive content :=
  | Markup (html : string)
  | Text (s : string).

(** The text of the error element: a string, or what [String(e)] makes
    of a [TypeError] raised by the script itself, whose wording is the
    engine's. *)
Inductive message :=
  | Message (s : string)
  | TypeErrorMessage.

(** The contents of the graph element and of the error element, where
    they exist. *)
Record page := Page { graph : content; err : message }.

(** [if(err) err.textContent = m]. *)
Definition show_error (b : browser) (m : message) (p : page) : page :=
  if err_found b then Page (graph p) m else p.

(** [graph.innerHTML = ...] and [graph.textContent = ...] on an element
    that exists. *)
Definition set_graph (c : content) (p : page) : page := Page c (err p).

(** [String(new Error(`HTTP ${res.status}`))]. *)
Definition http_error (status : Z) : message :=
  Message ("Error: HTTP " +:+ pretty status).

(** The branch on [window.mermaid], with the page it leaves once the
    render promise and its two callbacks have run, and whether a
    rejection is left unhandled: writing to a missing graph element
    throws inside the [then] callback and again inside the [catch]
    callback. *)
Definition show_definition (b : browser) (def : string) (p : page)
  : page * bool :=
  match mermaid b with
  | Some render =>
      match render def with
      | Rendered svg =>
          if graph_found b then (set_graph (Markup svg) p, false)
          else (p, true)
      | RenderFailed e =>
          if graph_found b
          then (show_error b (Message e) (set_graph (Text def) p), false)
          else (p, true)
      end
  | None =>
      if graph_found b then (set_graph (Text def) p, false)
      else (show_error b TypeErrorMessage p, false)
  end.

(** [renderMermaidFromEndpoint(url, graphId, errorId)]: the page left
    behind, and whether a rejection is left unhandled.  The promise the
    function returns is never rejected: everything after the first two
    lines runs inside [try]. *)
Definition renderMermaidFromEndpoint (fuel : nat) (b : browser) (p : page)
  : outcome (page * bool) :=
  let p0 := show_error b (Message "") p in
  match answer b with
  | Rejected e => Ret (show_error b (Message e) p0, false)
  | Response ok status bd =>
      if negb ok then Ret (show_error b (http_error status) p0, false)
      else
        match bd with
        | BadBody e => Ret (show_error b (Message e) p0, false)
        | Body j =>
            match build_json fuel j with
            | Ret def => Ret (show_definition b def p0)
            | Throw => Ret (show_error b TypeErrorMessage p0, false)
            | OutOfFuel => OutOfFuel
            end
        end
  end.

(** The definition the response delivers, if it delivers one. *)
Definition delivered (fuel : nat) (b : browser) : option string :=
  match answer b with
  | Response true _ (Body j) =>
      match build_json fuel j with Ret def => Some def | _ => None end
  | _ => None
  end.

(** The message of the failure that keeps the response from delivering
    a definition. *)
Definition failure (fuel : nat) (b : browser) : option message :=
  match answer b with
  | Rejected e => Some (Message e)
  | Response false status _ => Some (http_error status)
  | Response true _ (BadBody e) => Some (Message e)
  | Response true _ (Body j) =>
      match build_json fuel j with Throw => Some TypeErrorMessage | _ => None end
  end.

(** A browser with both elements, a good response for the two-node
    example, and a mermaid that fails to render. *)
Definition failing_mermaid : browser :=
  Browser true true (Response true 200 (Body flat_example))
    (Some (λ _, RenderFailed "Parse error")).

(** A browser without the graph element, with and without mermaid. *)
Definition no_graph_with_mermaid : browser :=
  Browser false true (Response true 200 (Body flat_example))
    (Some (λ _, Rendered "<svg/>")).

Definition no_graph_without_mermaid : browser :=
  Browser false true (Response true 200 (Body flat_example)) None.

(** A browser whose response holds a [null] substitute. *)
Definition bad_data : browser :=
  Browser true true (Response true 200 (Body null_substitute))
    (Some (λ _, Rendered "<svg/>")).

Definition stale_page : page := Page (Text "old") (Message "old error").

(** ** Vocabulary of the statements on the returned string *)

(** The text each [lines.push] of the source builds, by the push that
    produced the line: the header; the declaration of a node that
    passed the guard, its diagram id followed by its escaped label
    between brackets and quotes; or the edge from a node to an entry of
    its [children] that passed the guard, with the dashed connector
    exactly when the entry is cycle-marked. *)
Definition line_ok (σ : heap) (l : line) : Prop :=
  match line_tag l with
  | THeader => line_text l = "graph TD"
  | TDecl n =>
      has_id σ n = true ∧
      ∃ f p lbl,
        id f σ n = Ret p ∧ nodeLabel f σ n = Ret lbl ∧
        line_text l
        = p +:+ "[" +:+ String dquote (escape_str lbl) +:+ String dquote "]"
  | TEdge n c =>
      has_id σ c = true ∧
      ∃ f from ann to,
        id f σ n = Ret from ∧ id f σ c = Ret to ∧ qty f σ c = Ret ann ∧
        line_text l
        = from +:+ " " +:+ (if cycle_marked σ c then "-.->" else "-->")
            +:+ ann +:+ " " +:+ to
  end.


(** [child_of σ p d]: [d] is an entry of the [children] array of [p]. *)
Definition child_of (σ : heap) (p d : val) : Prop :=
  ∃ es, children_of σ p = Ret es ∧ d ∈ es.

(** The nodes [walk] expands: those that carry an id and are the root
    or are reached from it through entries that carry an id and are not
    cycle-marked. *)
Definition expanded (σ : heap) (root n : val) : Prop :=
  has_id σ n = true ∧ rtc (walk_edge σ) root n.

(** The input is a tree: an object or array is an entry of the
    [children] of at most one node, and the root of none. *)
Definition tree (σ : heap) (root : val) : Prop :=
  (∀ p p' l, child_of σ p (VRef l) → child_of σ p' (VRef l) → p = p') ∧
  (∀ p, ¬ child_of σ p root).

(** The line names the node [d]: as the node it declares, or as the
    source or the target of the edge. *)
Definition mentions (d : val) (t : tag) : Prop :=
  match t with
  | THeader => False
  | TDecl n => n = d
  | TEdge n c => n = d ∨ c = d
  end.

(** Where each line comes from: a declaration or an edge is pushed by
    the walk of a node reached from the root through expanded edges,
    and an edge leads to an entry of that node's [children] that
    carries an id. *)
Definition origin_ok (σ : heap) (root : val) (l : line) : Prop :=
  match line_tag l with
  | THeader => True
  | TDecl n => rtc (walk_edge σ) root n
  | TEdge n c =>
      rtc (walk_edge σ) root n ∧ child_of σ n c ∧ has_id σ c = true
  end.

(** A cell of the heap stores a reference to [l]. *)
Definition refd (σ : heap) (l : loc) : Prop :=
  ∃ k c, σ !! k = Some c ∧ VRef l ∈ cell_vals c.

(** No location is stored in two cells. *)
Definition unshared (σ : heap) : Prop :=
  ∀ k k' c c' l,
    σ !! k = Some c → σ !! k' = Some c' →
    VRef l ∈ cell_vals c → VRef l ∈ cell_vals c' → k = k'.

(** What the allocation of a list of values adds: no sharing, and
    references only to fresh locations other than the values
    returned. *)
Definition fresh_refs (s s' : heap * loc) (vs : list val) : Prop :=
  unshared s'.1 ∧
  (∀ l, refd s'.1 l → refd s.1 l ∨ (s.2 ≤ l ∧ VRef l ∉ vs)) ∧
  (∀ l, VRef l ∈ vs → s.2 ≤ l).

Definition alloc_tree (j : json) : Prop :=
  ∀ s, alloc_wf s → unshared s.1 →
       fresh_refs s (alloc j s).2 [(alloc j s).1].

(** The number of objects and arrays of a parsed value: the number of
    cells its allocation takes. *)
Fixpoint cells (j : json) : nat :=
  match j with
  | JArr es =>
      S ((fix go (es : list json) : nat :=
            match es with
            | [] => 0
            | e :: es' => cells e + go es'
            end) es)
  | JObj fs =>
      S ((fix go (fs : list (string * json)) : nat :=
            match fs with
            | [] => 0
            | kv :: fs' => cells kv.2 + go fs'
            end) fs)
  | _ => 0
  end.



(** A cycle between the parts 1 and 2 that no flag marks, as a parsed
    value holds it: unrolled, the ids repeating along the path. *)
Definition unrolled_cycle_example : json :=
  JObj [("id", JNum 1); ("name", JStr "A");
        ("children",
          JArr [JObj [("id", JNum 2); ("name", JStr "B");
                      ("children",
                        JArr [JObj [("id", JNum 1); ("name", JStr "A");
                                    ("children",
                                      JArr [JObj [("id", JNum 2);
                                                  ("name", JStr "B")]])]])]])].

(** A node whose name is an object with a property [toString]. *)
Definition unprintable_name : json :=
  JObj [("id", JNum 1); ("name", JObj [("toString", JStr "x")])].

(** The output for the cycle example in the shape [walk] reads, and for
    the example with a repeated subtree. *)
Definition cycle_output : string :=
  "graph TD" +:+ newline +:+
  "P1[" +:+ dq +:+ "A" +:+ dq +:+ "]" +:+ newline +:+
  "P1 -.-> P2".

Definition repeated_output : string :=
  "graph TD" +:+ newline +:+
  "P1[" +:+ dq +:+ "A" +:+ dq +:+ "]" +:+ newline +:+
  "P1 --> P2" +:+ newline +:+
  "P2[" +:+ dq +:+ "B" +:+ dq +:+ "]" +:+ newline +:+
  "P2 --> P3" +:+ newline +:+
  "P3[" +:+ dq +:+ "C" +:+ dq +:+ "]" +:+ newline +:+
  "P1 --> P2" +:+ newline +:+
  "P2 --> P3".


(** ** Basic facts *)

Lemma bind_Ret {A B} (m : outcome A) (f : A → outcome B) (b : B) :
  m ≫= f = Ret b ↔ ∃ a, m = Ret a ∧ f a = Ret b.
Proof.
  split.
  - destruct m as [a| |]; simpl; [eauto | discriminate | discriminate].
  - intros (a & -> & Hf). exact Hf.
Qed.

Lemma bind_ret_l {A B} (a : A) (f : A → outcome B) : Ret a ≫= f = f a.
Proof. reflexivity. Qed.

Lemma walk_S fuel σ n st :
  walk (S fuel) σ n st =
    if truthy n then
      i ← get σ n "id";
      if truthy i then
        st1 ← (if seen_has i st then Ret st else declare fuel σ n st);
        es ← children_of σ n;
        for_each (visit (walk fuel σ) fuel σ n) es st1
      else Ret st
    else Ret st.
Proof. reflexivity. Qed.

Lemma get_truthy σ n k : truthy n = true → ∃ v, get σ n k = Ret v.
Proof.
  destruct n as [| | b|z|s|l]; simpl; try discriminate; eauto.
  destruct (σ !! l) as [[fs|es]|]; eauto.
Qed.

Lemma has_id_true σ n :
  has_id σ n = true ↔
  truthy n = true ∧ ∃ i, get σ n "id" = Ret i ∧ truthy i = true.
Proof.
  unfold has_id. rewrite andb_true_iff. split.
  - intros [Hn Hi]. split; [done|].
    destruct (get σ n "id") as [i| |]; [eauto | done | done].
  - intros [Hn (i & -> & Hi)]. done.
Qed.

Lemma has_id_false σ n :
  has_id σ n = false ↔ ∀ i, truthy n = true → get σ n "id" = Ret i → truthy i = false.
Proof.
  unfold has_id. split.
  - intros H i Hn Hi. rewrite Hn, Hi in H. exact H.
  - intros H. destruct (truthy n) eqn:Hn; [|done].
    destruct (get_truthy σ n "id" Hn) as [i Hi]. rewrite Hi. simpl. eauto.
Qed.

(** Opening one [bind] of a run that returned. *)
Tactic Notation "open_bind" hyp(H) "as" ident(a) ident(Ha) :=
  apply bind_Ret in H as (a & Ha & H).

(** ** More fuel never changes a result *)

Lemma refines_refl {A} (m : outcome A) : refines m m.
Proof. by right. Qed.

Lemma bind_refines {A B} (m m' : outcome A) (f f' : A → outcome B) :
  refines m m' → (∀ a, refines (f a) (f' a)) →
  refines (m ≫= f) (m' ≫= f').
Proof.
  intros [->| ->] Hf; [by left|].
  destruct m' as [a| |]; simpl; [apply Hf|by right|by left].
Qed.

Lemma join_refines (ts ts' : val → outcome string) sep es :
  (∀ e, refines (ts e) (ts' e)) →
  refines (join ts sep es) (join ts' sep es).
Proof.
  intros H. induction es as [|e es IH]; [apply refines_refl|]. simpl.
  apply bind_refines.
  - unfold join_elem. destruct (nullish e); [apply refines_refl|apply H].
  - intros s. destruct es as [|e' es]; [apply refines_refl|].
    apply bind_refines; [exact IH|]. intros t. apply refines_refl.
Qed.

Lemma to_string_with_refines (arr arr' : list val → outcome string) σ v :
  (∀ es, refines (arr es) (arr' es)) →
  refines (to_string_with arr σ v) (to_string_with arr' σ v).
Proof.
  intros H. destruct v as [| |b|z|s|l]; try apply refines_refl.
  simpl. destruct (σ !! l) as [[fs|es]|]; [apply refines_refl|apply H|
                                           apply refines_refl].
Qed.

Lemma array_to_string_mono σ fuel : ∀ fuel' es,
  fuel ≤ fuel' →
  refines (array_to_string fuel σ es) (array_to_string fuel' σ es).
Proof.
  induction fuel as [|fuel IH]; intros fuel' es Hle; [by left|].
  destruct fuel' as [|fuel']; [lia|]. simpl.
  apply join_refines. intros e. apply to_string_with_refines.
  intros es'. apply IH. lia.
Qed.

Lemma to_string_mono σ fuel fuel' v :
  fuel ≤ fuel' → refines (to_string fuel σ v) (to_string fuel' σ v).
Proof.
  intros Hle. apply to_string_with_refines. intros es.
  by apply array_to_string_mono.
Qed.

Lemma id_mono σ fuel fuel' n :
  fuel ≤ fuel' → refines (id fuel σ n) (id fuel' σ n).
Proof.
  intros Hle. unfold id. apply bind_refines; [apply refines_refl|].
  intros i. apply bind_refines; [by apply to_string_mono|].
  intros s. apply refines_refl.
Qed.

Lemma nodeLabel_mono σ fuel fuel' n :
  fuel ≤ fuel' → refines (nodeLabel fuel σ n) (nodeLabel fuel' σ n).
Proof.
  intros Hle. unfold nodeLabel.
  apply bind_refines; [apply refines_refl|]. intros nm.
  apply bind_refines; [apply refines_refl|]. intros iv.
  apply bind_refines.
  { destruct (truthy iv); [|apply refines_refl].
    apply bind_refines; [by apply to_string_mono|].
    intros s. apply refines_refl. }
  intros ipn. apply bind_refines; [apply refines_refl|]. intros cv.
  apply bind_refines; [apply refines_refl|]. intros sv.
  apply bind_refines.
  { destruct (as_array σ sv) as [[|e es]|]; try apply refines_refl.
    apply bind_refines; [apply refines_refl|]. intros vs.
    apply bind_refines; [|intros s; apply refines_refl].
    apply join_refines. intros v. by apply to_string_mono. }
  intros subs. apply bind_refines; [by apply to_string_mono|].
  intros ns. apply refines_refl.
Qed.

Lemma declare_mono σ fuel fuel' n st :
  fuel ≤ fuel' → refines (declare fuel σ n st) (declare fuel' σ n st).
Proof.
  intros Hle. unfold declare.
  apply bind_refines; [by apply id_mono|]. intros p.
  apply bind_refines; [by apply nodeLabel_mono|]. intros lbl.
  apply bind_refines; [|intros e; apply refines_refl].
  unfold escape. apply bind_refines; [by apply to_string_mono|].
  intros t. apply refines_refl.
Qed.

Lemma edge_line_mono σ fuel fuel' n c :
  fuel ≤ fuel' → refines (edge_line fuel σ n c) (edge_line fuel' σ n c).
Proof.
  intros Hle. unfold edge_line.
  apply bind_refines.
  { unfold qty.
    apply bind_refines; [apply refines_refl|]. intros q.
    destruct (nullish q); [apply refines_refl|].
    apply bind_refines; [by apply to_string_mono|].
    intros s. apply refines_refl. }
  intros ann. apply bind_refines; [apply refines_refl|]. intros cyc.
  apply bind_refines; [by apply id_mono|]. intros p.
  apply bind_refines; [by apply id_mono|]. intros t. apply refines_refl.
Qed.

Lemma for_each_refines (g g' : val → state → outcome state) es :
  (∀ e s, refines (g e s) (g' e s)) →
  ∀ st, refines (for_each g es st) (for_each g' es st).
Proof.
  intros H. induction es as [|e es IH]; intros st; [apply refines_refl|].
  simpl. apply bind_refines; [apply H|]. intros s. apply IH.
Qed.

Lemma walk_mono σ fuel : ∀ fuel' n st,
  fuel ≤ fuel' → refines (walk fuel σ n st) (walk fuel' σ n st).
Proof.
  induction fuel as [|fuel IH]; intros fuel' n st Hle; [by left|].
  destruct fuel' as [|fuel']; [lia|]. rewrite !walk_S.
  assert (fuel ≤ fuel') as Hle' by lia.
  destruct (truthy n); [|apply refines_refl].
  apply bind_refines; [apply refines_refl|]. intros i.
  destruct (truthy i); [|apply refines_refl].
  apply bind_refines.
  { destruct (seen_has i st); [apply refines_refl|by apply declare_mono]. }
  intros st1. apply bind_refines; [apply refines_refl|]. intros es.
  apply for_each_refines. intros c s. unfold visit.
  destruct (truthy c); [|apply refines_refl].
  apply bind_refines; [apply refines_refl|]. intros ci.
  destruct (truthy ci); [|apply refines_refl].
  apply bind_refines; [by apply edge_line_mono|]. intros l.
  apply bind_refines; [apply refines_refl|]. intros cy.
  destruct (truthy cy); [apply refines_refl|]. by apply IH.
Qed.

(** Once the builder has returned a string, or thrown, it does the same
    with any larger fuel: results do not depend on the fuel. *)
Lemma buildMermaid_mono σ fuel fuel' root :
  fuel ≤ fuel' →
  buildMermaid fuel σ root ≠ OutOfFuel →
  buildMermaid fuel' σ root = buildMermaid fuel σ root.
Proof.
  intros Hle Hne.
  assert (refines (buildMermaid fuel σ root) (buildMermaid fuel' σ root))
    as [H|H]; [|done|by symmetry].
  unfold buildMermaid, build_lines.
  apply bind_refines; [|intros ls; apply refines_refl].
  apply bind_refines; [by apply walk_mono|]. intros s. apply refines_refl.
Qed.

(** ** A proof rule for state invariants of [walk] *)

Section walk_invariant.
Context (σ : heap) (R : val → Prop) (I : state → Prop).

Hypothesis R_child : ∀ n c es,
  R n → has_id σ n = true → children_of σ n = Ret es → c ∈ es →
  has_id σ c = true → cycle_marked σ c = false → R c.

Hypothesis I_declare : ∀ fuel n st st',
  R n → has_id σ n = true → seen_has (id_val σ n) st = false →
  declare fuel σ n st = Ret st' → I st → I st'.

Hypothesis I_edge : ∀ fuel n c es l st,
  R n → has_id σ n = true → children_of σ n = Ret es → c ∈ es →
  has_id σ c = true → edge_line fuel σ n c = Ret l →
  I st → I (push (TEdge n c) l st).

Lemma for_each_inv (f : val → state → outcome state) (es0 : list val) :
  (∀ c st st', c ∈ es0 → I st → f c st = Ret st' → I st') →
  ∀ es st st', es ⊆ es0 → I st → for_each f es st = Ret st' → I st'.
Proof.
  intros Hf es. induction es as [|e es IH]; intros st st' Hsub HI Hrun.
  - simpl in Hrun. by injection Hrun as <-.
  - simpl in Hrun. open_bind Hrun as st1 Hst1.
    apply (IH st1 st'); [set_solver | | done].
    apply (Hf e st st1); [set_solver | done | done].
Qed.

Lemma walk_inv fuel : ∀ n st st',
  R n → I st → walk fuel σ n st = Ret st' → I st'.
Proof.
  induction fuel as [|fuel IH]; intros n st st' HR HI Hrun; [done|].
  rewrite walk_S in Hrun.
  destruct (truthy n) eqn:Hn; [|by injection Hrun as <-].
  open_bind Hrun as i Hi.
  destruct (truthy i) eqn:Hti; [|by injection Hrun as <-].
  assert (Hid : has_id σ n = true) by (apply has_id_true; eauto).
  assert (Hiv : id_val σ n = i) by (unfold id_val; by rewrite Hi).
  open_bind Hrun as st1 Hst1. open_bind Hrun as es Hes.
  assert (HI1 : I st1).
  { destruct (seen_has i st) eqn:Hs.
    - by injection Hst1 as <-.
    - eapply I_declare; eauto. by rewrite Hiv. }
  eapply (for_each_inv _ es); [|reflexivity|exact HI1|exact Hrun].
  intros c s s' Hc Hs Hv. unfold visit in Hv.
  destruct (truthy c) eqn:Hct; [|by injection Hv as <-].
  open_bind Hv as ci Hci.
  destruct (truthy ci) eqn:Htci; [|by injection Hv as <-].
  assert (Hcid : has_id σ c = true) by (apply has_id_true; eauto).
  open_bind Hv as l Hl. open_bind Hv as cy Hcy.
  assert (HI2 : I (push (TEdge n c) l s)) by (eapply I_edge; eauto).
  destruct (truthy cy) eqn:Htcy; [by injection Hv as <-|].
  eapply IH; [|exact HI2|exact Hv].
  eapply R_child; eauto. unfold cycle_marked. by rewrite Hcy.
Qed.
End walk_invariant.

(** ** C6 and C7: what every buffered edge line is *)

Lemma walk_edge_ok fuel σ n st st' :
  Forall (edge_ok σ) (lines st) →
  walk fuel σ n st = Ret st' →
  Forall (edge_ok σ) (lines st').
Proof.
  intros HI Hrun.
  refine (walk_inv σ (λ _, True) (λ s, Forall (edge_ok σ) (lines s))
            _ _ _ fuel n st st' I HI Hrun).
  - done.
  - intros f m s s' _ _ _ Hd Hs. unfold declare in Hd.
    open_bind Hd as p Hp. open_bind Hd as lbl Hlbl.
    open_bind Hd as e He. open_bind Hd as i Hi.
    injection Hd as <-. simpl. apply Forall_app. split; [done|].
    by repeat constructor.
  - intros f m c es l s _ _ _ _ Hc Hl Hs. simpl.
    apply Forall_app. split; [done|]. apply Forall_singleton.
    unfold edge_ok; simpl. split; [done|]. by exists f.
Qed.

Lemma build_edge_ok fuel σ root ls :
  build_lines fuel σ root = Ret ls → Forall (edge_ok σ) ls.
Proof.
  unfold build_lines. intros H. open_bind H as st Hst. injection H as <-.
  eapply walk_edge_ok; [|exact Hst]. by repeat constructor.
Qed.

Lemma edge_line_inv fuel σ n c text :
  edge_line fuel σ n c = Ret text →
  ∃ cyc ann from to,
    get σ c "cycle" = Ret cyc ∧ qty fuel σ c = Ret ann ∧
    id fuel σ n = Ret from ∧ id fuel σ c = Ret to ∧
    text = from +:+ " " +:+ connector cyc +:+ ann +:+ " " +:+ to.
Proof.
  unfold edge_line. intros H.
  open_bind H as ann Hann. open_bind H as cyc Hcyc.
  open_bind H as p Hp. open_bind H as t Ht. injection H as <-.
  exists cyc, ann, p, t. done.
Qed.

(** C6. Every edge line buffered by the builder is the source node's
    diagram id, a space, the connector, the quantity annotation of the
    child entry, a space and the child's diagram id, where the connector
    is the dashed arrow exactly when the child entry's [cycle] property
    is truthy, and the solid arrow otherwise. *)
Theorem edge_connector_follows_cycle_flag fuel σ root ls n c text :
  build_lines fuel σ root = Ret ls →
  Line (TEdge n c) text ∈ ls →
  ∃ f from ann to,
    id f σ n = Ret from ∧ id f σ c = Ret to ∧
    qty f σ c = Ret ann ∧
    text = from +:+ " "
           +:+ (if cycle_marked σ c then "-.->" else "-->")
           +:+ ann +:+ " " +:+ to.
Proof.
  intros Hb Hin. apply build_edge_ok in Hb.
  rewrite Forall_forall in Hb. specialize (Hb _ Hin).
  destruct Hb as [_ [f Hf]]. simpl in Hf.
  apply edge_line_inv in Hf
    as (cyc & ann & from & to & Hcyc & Hann & Hfrom & Hto & ->).
  exists f, from, ann, to. repeat split; try done.
  unfold cycle_marked, connector. by rewrite Hcyc.
Qed.

(** C7. Every edge line buffered by the builder carries the annotation
    [|q|], with [q] the printed [quantity] property of the child entry,
    when that property is neither absent nor [null], and no annotation
    at all otherwise. *)
Theorem edge_annotation_follows_quantity fuel σ root ls n c text :
  build_lines fuel σ root = Ret ls →
  Line (TEdge n c) text ∈ ls →
  ∃ f q from arrow to,
    get σ c "quantity" = Ret q ∧
    id f σ n = Ret from ∧ id f σ c = Ret to ∧
    (arrow = "-.->" ∨ arrow = "-->") ∧
    if nullish q
    then text = from +:+ " " +:+ arrow +:+ " " +:+ to
    else ∃ s, to_string f σ q = Ret s ∧
              text = from +:+ " " +:+ arrow +:+ ("|" +:+ s +:+ "|") +:+ " " +:+ to.
Proof.
  intros Hb Hin. apply build_edge_ok in Hb.
  rewrite Forall_forall in Hb. specialize (Hb _ Hin).
  destruct Hb as [_ [f Hf]]. simpl in Hf.
  apply edge_line_inv in Hf
    as (cyc & ann & from & to & _ & Hann & Hfrom & Hto & ->).
  unfold qty in Hann. open_bind Hann as q Hq.
  exists f, q, from, (connector cyc), to. repeat split; try done.
  { unfold connector. destruct (truthy cyc); auto. }
  destruct (nullish q).
  - by injection Hann as <-.
  - open_bind Hann as s Hs. injection Hann as <-. by exists s.
Qed.

(** C6 on the cycle example: the edge into the cycle-marked child. *)
Lemma edge_connector_follows_cycle_flag_witness :
  build_lines 2 cycle_heap (VRef 4)
  = Ret [Line THeader "graph TD";
         Line (TDecl (VRef 4)) ("P1[" +:+ dq +:+ "A" +:+ dq +:+ "]");
         Line (TEdge (VRef 4) (VRef 2)) "P1 -.-> P2"] ∧
  cycle_marked cycle_heap (VRef 2) = true ∧
  ∃ f from ann to,
    id f cycle_heap (VRef 4) = Ret from ∧ id f cycle_heap (VRef 2) = Ret to ∧
    qty f cycle_heap (VRef 2) = Ret ann ∧
    "P1 -.-> P2"
    = from +:+ " "
      +:+ (if cycle_marked cycle_heap (VRef 2) then "-.->" else "-->")
      +:+ ann +:+ " " +:+ to.
Proof.
  split; [vm_compute; reflexivity|].
  split; [vm_compute; reflexivity|].
  eapply (edge_connector_follows_cycle_flag 2 cycle_heap (VRef 4)).
  - vm_compute; reflexivity.
  - apply (bool_decide_eq_true_1 _). vm_compute; reflexivity.
Defined.

(** C7 on the two-node example: the edge annotated with quantity 2. *)
Lemma edge_annotation_follows_quantity_witness :
  build_lines 2 flat_heap (VRef 3)
  = Ret [Line THeader "graph TD";
         Line (TDecl (VRef 3)) ("P1[" +:+ dq +:+ "A" +:+ dq +:+ "]");
         Line (TEdge (VRef 3) (VRef 1)) "P1 -->|2| P2";
         Line (TDecl (VRef 1)) ("P2[" +:+ dq +:+ "B" +:+ dq +:+ "]")] ∧
  get flat_heap (VRef 1) "quantity" = Ret (VNum 2) ∧
  ∃ f q from arrow to,
    get flat_heap (VRef 1) "quantity" = Ret q ∧
    id f flat_heap (VRef 3) = Ret from ∧ id f flat_heap (VRef 1) = Ret to ∧
    (arrow = "-.->" ∨ arrow = "-->") ∧
    if nullish q
    then "P1 -->|2| P2" = from +:+ " " +:+ arrow +:+ " " +:+ to
    else ∃ s, to_string f flat_heap q = Ret s ∧
              "P1 -->|2| P2"
              = from +:+ " " +:+ arrow +:+ ("|" +:+ s +:+ "|") +:+ " " +:+ to.
Proof.
  split; [vm_compute; reflexivity|].
  split; [vm_compute; reflexivity|].
  eapply (edge_annotation_follows_quantity 2 flat_heap (VRef 3)).
  - vm_compute; reflexivity.
  - apply (bool_decide_eq_true_1 _). vm_compute; reflexivity.
Defined.

(** ** C9: nodes without a truthy id *)

Lemma has_id_id_val σ n : has_id σ n = false ↔ truthy (id_val σ n) = false.
Proof.
  unfold has_id, id_val. destruct n as [| |b|z|s|l]; simpl; try done.
  - by rewrite andb_false_r.
  - by rewrite andb_false_r.
  - by rewrite andb_false_r.
  - by destruct (σ !! l) as [[fs|es]|].
Qed.

Lemma visit_no_id rec fuel σ p c st :
  has_id σ c = false → visit rec fuel σ p c st = Ret st.
Proof.
  intros H. unfold visit. destruct (truthy c) eqn:Hc; [|done].
  destruct (get_truthy σ c "id" Hc) as [i Hi]. rewrite Hi. simpl.
  by rewrite (proj1 (has_id_false σ c) H i Hc Hi).
Qed.

Lemma walk_no_id fuel σ n st :
  has_id σ n = false → walk (S fuel) σ n st = Ret st.
Proof.
  intros H. rewrite walk_S. destruct (truthy n) eqn:Hn; [|done].
  destruct (get_truthy σ n "id" Hn) as [i Hi]. rewrite Hi. simpl.
  by rewrite (proj1 (has_id_false σ n) H i Hn Hi).
Qed.

(** C9. A value whose [id] is falsy ([0], the empty string, [false],
    [null]) or missing is no node: [walk] returns at once on it,
    leaving the lines and the seen set as they were, so that as the
    root it yields the header alone; and as an entry of a [children]
    array the callback returns at once, pushing no edge line. *)
Theorem falsy_id_is_skipped fuel σ n :
  truthy (id_val σ n) = false →
  (∀ st, walk (S fuel) σ n st = Ret st) ∧
  (∀ rec p st, visit rec fuel σ p n st = Ret st) ∧
  buildMermaid (S fuel) σ n = Ret "graph TD".
Proof.
  intros H. apply has_id_id_val in H. split; [|split].
  - intros st. by apply walk_no_id.
  - intros rec p st. by apply visit_no_id.
  - unfold buildMermaid, build_lines. by rewrite walk_no_id.
Qed.

(** C9 on roots with the id [0], with the empty id and without id. *)
Lemma falsy_id_is_skipped_witness :
  truthy (id_val (load zero_id).2 (load zero_id).1) = false ∧
  truthy (id_val (load empty_id).2 (load empty_id).1) = false ∧
  truthy (id_val (load no_id).2 (load no_id).1) = false ∧
  buildMermaid 1 (load zero_id).2 (load zero_id).1 = Ret "graph TD" ∧
  buildMermaid 1 (load empty_id).2 (load empty_id).1 = Ret "graph TD" ∧
  buildMermaid 1 (load no_id).2 (load no_id).1 = Ret "graph TD".
Proof.
  split; [vm_compute; reflexivity|].
  split; [vm_compute; reflexivity|].
  split; [vm_compute; reflexivity|].
  split; [|split].
  - apply (falsy_id_is_skipped O (load zero_id).2 (load zero_id).1).
    vm_compute; reflexivity.
  - apply (falsy_id_is_skipped O (load empty_id).2 (load empty_id).1).
    vm_compute; reflexivity.
  - apply (falsy_id_is_skipped O (load no_id).2 (load no_id).1).
    vm_compute; reflexivity.
Defined.

(** Entries without a truthy id leave no trace, whatever they hold. *)
Example falsy_children_skipped (k : nat) :
  build_json (2 + k)
    (JObj [("id", JNum 1); ("name", JStr "A");
           ("children",
             JArr [JObj [("id", JNum 0); ("name", JStr "Z");
                         ("children", JArr [JObj [("id", JNum 5)]])];
                   JNull;
                   JObj [("id", JStr ""); ("quantity", JNum 4)];
                   JObj [("id", JNum 2); ("name", JStr "B")]])])
  = Ret ("graph TD" +:+ newline +:+
         "P1[" +:+ dq +:+ "A" +:+ dq +:+ "]" +:+ newline +:+
         "P1 --> P2" +:+ newline +:+
         "P2[" +:+ dq +:+ "B" +:+ dq +:+ "]").
Proof. by vm_compute. Qed.

(** ** C1: children marked as cycle points *)

(** C1, as stated, fails.  On the cycle example as the specification
    writes it the entry of [children] has no [id] of its own and the
    edge is skipped.  In the shape [walk] reads, the dashed edge to the
    cycle-marked child is pushed, but the child is not declared. *)
Lemma cycle_example_child_not_declared :
  build_json 1 spec_cycle_example
  = Ret ("graph TD" +:+ newline +:+ "P1[" +:+ dq +:+ "A" +:+ dq +:+ "]") ∧
  build_json 2 flat_cycle_example
  = Ret ("graph TD" +:+ newline +:+
         "P1[" +:+ dq +:+ "A" +:+ dq +:+ "]" +:+ newline +:+
         "P1 -.-> P2") ∧
  ∃ ls, build_json_lines 2 flat_cycle_example = Ret ls ∧
        cycle_declaration ∉ line_text <$> ls.
Proof.
  split; [by vm_compute|]. split; [by vm_compute|].
  eexists. split; [by vm_compute|].
  apply (bool_decide_eq_false_1 _). by vm_compute.
Qed.

Lemma build_source_ok fuel σ root ls :
  build_lines fuel σ root = Ret ls → Forall (source_ok σ root) ls.
Proof.
  unfold build_lines. intros H. open_bind H as st Hst. injection H as <-.
  refine (walk_inv σ (λ n, n = root ∨ cycle_marked σ n = false)
            (λ s, Forall (source_ok σ root) (lines s))
            _ _ _ fuel root init st _ _ Hst).
  - intros n c es _ _ _ _ _ Hc. by right.
  - intros f n s s' Hn _ _ Hd Hs. unfold declare in Hd.
    open_bind Hd as p Hp. open_bind Hd as lbl Hlbl.
    open_bind Hd as e He. open_bind Hd as i Hi.
    injection Hd as <-. simpl. apply Forall_app. split; [done|].
    by apply Forall_singleton.
  - intros f n c es l s Hn _ _ _ _ _ Hs. simpl.
    apply Forall_app. split; [done|]. by apply Forall_singleton.
  - by left.
  - by apply Forall_singleton.
Qed.

(** ** Declarations and the seen set *)

Lemma declare_inv fuel σ n st st' :
  declare fuel σ n st = Ret st' →
  ∃ i text, get σ n "id" = Ret i ∧
            st' = seen_add i (push (TDecl n) text st).
Proof.
  unfold declare. intros Hd.
  open_bind Hd as p Hp. open_bind Hd as lbl Hlbl.
  open_bind Hd as e He. open_bind Hd as i Hi.
  injection Hd as <-. eauto.
Qed.

Lemma decl_ids_app σ ls ls' :
  decl_ids σ (ls ++ ls') = decl_ids σ ls ++ decl_ids σ ls'.
Proof. unfold decl_ids. apply omap_app. Qed.

Lemma seen_has_false i st : seen_has i st = false ↔ i ∉ seen st.
Proof. unfold seen_has. apply bool_decide_eq_false. Qed.

Lemma seen_has_true i st : seen_has i st = true ↔ i ∈ seen st.
Proof. unfold seen_has. apply bool_decide_eq_true. Qed.

Lemma walk_decl_seen fuel σ n st st' :
  decl_seen σ st → walk fuel σ n st = Ret st' → decl_seen σ st'.
Proof.
  intros HI Hrun.
  refine (walk_inv σ (λ _, True) (decl_seen σ) _ _ _ fuel n st st' I HI Hrun).
  - done.
  - intros f m s s' _ Hm Hs Hd [Hl Hn].
    apply declare_inv in Hd as (i & text & Hi & ->).
    assert (id_val σ m = i) as Hiv by (unfold id_val; by rewrite Hi).
    rewrite Hiv in Hs. unfold decl_seen, seen_add.
    change (seen_has i (push (TDecl m) text s)) with (seen_has i s).
    rewrite Hs. simpl. rewrite decl_ids_app, Hl. simpl. rewrite Hiv.
    split; [done|]. apply NoDup_app. split; [done|].
    apply seen_has_false in Hs. split; [|apply NoDup_singleton].
    intros x Hx Hx'. apply list_elem_of_singleton in Hx' as ->. done.
  - intros f m c es l s _ _ _ _ _ _ [Hl Hn]. unfold decl_seen. simpl.
    rewrite decl_ids_app, Hl. simpl. by rewrite app_nil_r.
Qed.

Lemma build_decl_nodup fuel σ root ls :
  build_lines fuel σ root = Ret ls → NoDup (decl_ids σ ls).
Proof.
  unfold build_lines. intros H. open_bind H as st Hst. injection H as <-.
  assert (decl_seen σ st) as [-> Hn]; [|done].
  eapply walk_decl_seen; [|exact Hst]. split; [done|]. apply NoDup_nil_2.
Qed.

Lemma reach_snoc σ n m es c :
  reach σ n m → children_of σ m = Ret es → c ∈ es → reach σ n c.
Proof.
  induction 1 as [n|n es' c' m Hch Hin Hr IH]; intros Hes Hc.
  - eapply reach_step; [exact Hes|exact Hc|apply reach_refl].
  - eapply reach_step; [exact Hch|exact Hin|by apply IH].
Qed.

Lemma build_decl_ok fuel σ root ls :
  build_lines fuel σ root = Ret ls → Forall (decl_ok σ root) ls.
Proof.
  unfold build_lines. intros H. open_bind H as st Hst. injection H as <-.
  refine (walk_inv σ (reach σ root)
            (λ s, Forall (decl_ok σ root) (lines s))
            _ _ _ fuel root init st _ _ Hst).
  - intros n c es Hn _ Hes Hc _ _. by eapply reach_snoc.
  - intros f n s s' Hn _ _ Hd Hs.
    apply declare_inv in Hd as (i & text & Hi & ->). simpl.
    apply Forall_app. split; [done|]. by apply Forall_singleton.
  - intros f n c es l s _ _ _ _ _ _ Hs. simpl.
    apply Forall_app. split; [done|]. by apply Forall_singleton.
  - apply reach_refl.
  - by apply Forall_singleton.
Qed.

(** The seen set only grows. *)
Lemma walk_seen_mono fuel σ n st st' :
  walk fuel σ n st = Ret st' → seen st ⊆ seen st'.
Proof.
  intros Hrun.
  refine (walk_inv σ (λ _, True) (λ s, seen st ⊆ seen s)
            _ _ _ fuel n st st' I _ Hrun); [done| | |done].
  - intros f m s s' _ _ _ Hd Hs.
    apply declare_inv in Hd as (i & text & Hi & ->).
    unfold seen_add. destruct (seen_has i _); simpl; [done|].
    intros x Hx. apply elem_of_app. left. by apply Hs.
  - intros f m c es l s _ _ _ _ _ _ Hs. done.
Qed.

Lemma visit_seen_mono fuel σ n c st st' :
  visit (walk fuel σ) fuel σ n c st = Ret st' → seen st ⊆ seen st'.
Proof.
  unfold visit. intros Hv.
  destruct (truthy c); [|by injection Hv as <-].
  open_bind Hv as ci Hci.
  destruct (truthy ci); [|by injection Hv as <-].
  open_bind Hv as l Hl. open_bind Hv as cy Hcy.
  destruct (truthy cy); [by injection Hv as <-|].
  by apply walk_seen_mono in Hv.
Qed.

Lemma for_each_seen_mono fuel σ n es : ∀ st st',
  for_each (visit (walk fuel σ) fuel σ n) es st = Ret st' →
  seen st ⊆ seen st'.
Proof.
  induction es as [|e es IH]; intros st st' Hrun; simpl in Hrun.
  - by injection Hrun as <-.
  - open_bind Hrun as st1 Hst1. apply visit_seen_mono in Hst1.
    apply IH in Hrun. by etrans.
Qed.


Lemma reach_inv σ n m :
  reach σ n m →
  m = n ∨ ∃ es c, children_of σ n = Ret es ∧ c ∈ es ∧ reach σ c m.
Proof. destruct 1; [by left|right; eauto]. Qed.

Lemma nodes_under_reach σ fuel : ∀ n l,
  nodes_under fuel σ n = Some l → ∀ m, reach σ n m ↔ m ∈ l.
Proof.
  induction fuel as [|fuel IH]; intros n l Hl m; [done|].
  simpl in Hl. destruct (children_of σ n) as [es| |] eqn:Hes.
  - destruct (mapM (nodes_under fuel σ) es) as [ns|] eqn:Hns; [|done].
    injection Hl as <-. apply mapM_Some in Hns. split.
    + intros Hm. apply reach_inv in Hm as [->|(es' & c & Hes' & Hc & Hm)].
      { left. }
      rewrite Hes in Hes'. injection Hes' as <-. right.
      apply list_elem_of_lookup in Hc as [k Hk].
      destruct (Forall2_lookup_l _ _ _ _ _ Hns Hk) as (lc & Hlc & Hc).
      apply list_elem_of_join. exists lc. split.
      * by apply (IH c lc).
      * by eapply list_elem_of_lookup_2.
    + intros Hm. apply elem_of_cons in Hm as [->|Hm]; [apply reach_refl|].
      apply list_elem_of_join in Hm as (lc & Hm & Hlc).
      apply list_elem_of_lookup in Hlc as [k Hk].
      destruct (Forall2_lookup_r _ _ _ _ _ Hns Hk) as (c & Hc & Hclc).
      eapply reach_step; [exact Hes| |].
      * by eapply list_elem_of_lookup_2.
      * by apply (IH c lc).
  - injection Hl as <-. split.
    + intros Hm. apply reach_inv in Hm as [->|(es' & c & Hes' & _)];
        [left|congruence].
    + intros ->%list_elem_of_singleton. apply reach_refl.
  - injection Hl as <-. split.
    + intros Hm. apply reach_inv in Hm as [->|(es' & c & Hes' & _)];
        [left|congruence].
    + intros ->%list_elem_of_singleton. apply reach_refl.
Qed.

Example shared_id_output :
  buildMermaid 3 shared_id_heap (VRef 7)
  = Ret ("graph TD" +:+ newline +:+
         "P1[" +:+ dq +:+ "A" +:+ dq +:+ "]" +:+ newline +:+
         "P1 --> P2" +:+ newline +:+
         "P2[" +:+ dq +:+ "B" +:+ dq +:+ "]" +:+ newline +:+
         "P2 --> P4" +:+ newline +:+
         "P4[" +:+ dq +:+ "D" +:+ dq +:+ "]" +:+ newline +:+
         "P1 --> P3" +:+ newline +:+
         "P3[" +:+ dq +:+ "C" +:+ dq +:+ "]" +:+ newline +:+
         "P3 --> P4").
Proof. by vm_compute. Qed.

(** ** Counting the edges pushed on each traversal *)

Lemma count_tag_app t ls ls' :
  count_tag t (ls ++ ls') = count_tag t ls + count_tag t ls'.
Proof. unfold count_tag. by rewrite filter_app, length_app. Qed.

Lemma count_into_app c ls ls' :
  count_into c (ls ++ ls') = count_into c ls + count_into c ls'.
Proof. unfold count_into. by rewrite filter_app, length_app. Qed.

Lemma count_tag_one t t' s :
  count_tag t [Line t' s] = if decide (t' = t) then 1 else 0.
Proof.
  unfold count_tag. rewrite filter_cons. simpl.
  by destruct (decide (t' = t)).
Qed.

Lemma count_into_edge c n e s :
  count_into c [Line (TEdge n e) s] = if decide (e = c) then 1 else 0.
Proof.
  unfold count_into. rewrite filter_cons. simpl.
  by destruct (decide (e = c)).
Qed.

Lemma count_into_decl c n s : count_into c [Line (TDecl n) s] = 0.
Proof. unfold count_into. by rewrite filter_cons. Qed.

Lemma count_occ_cons d e es :
  count_occ d (e :: es) = (if decide (e = d) then 1 else 0) + count_occ d es.
Proof.
  unfold count_occ. rewrite filter_cons. by destruct (decide (e = d)).
Qed.

Lemma count_nodup (x : val) (l : list val) :
  NoDup l →
  length (filter (λ i, i = x) l) ≤ 1 ∧
  (x ∈ l → length (filter (λ i, i = x) l) = 1).
Proof.
  induction 1 as [|y l Hy Hl IH].
  - split; [simpl; lia|]. intros H. by apply elem_of_nil in H.
  - rewrite filter_cons. destruct IH as [IH1 IH2].
    destruct (decide (y = x)) as [->|Hne]; simpl.
    + assert (length (filter (λ i, i = x) l) = 0) as ->.
      { destruct (filter (λ i, i = x) l) as [|z k] eqn:Hf; [done|].
        assert (z ∈ filter (λ i, i = x) l) as Hz by (rewrite Hf; left).
        apply list_elem_of_filter in Hz as [-> Hz]. done. }
      split; [lia|done].
    + split; [done|]. intros Hx.
      apply elem_of_cons in Hx as [->|Hx]; [done|]. by apply IH2.
Qed.

Section traversals.
Context (σ : heap) (c d : val) (es : list val).
Hypothesis c_id : has_id σ c = true.
Hypothesis c_plain : cycle_marked σ c = false.
Hypothesis c_children : children_of σ c = Ret es.
Hypothesis d_id : has_id σ d = true.

(** What one walk of [n] appends: edges from [c] to [d] once per
    traversal of [c] and per occurrence of [d] among its children;
    and the id of [c] is seen as soon as [c] was traversed. *)
Lemma walk_counts fuel : ∀ n st st',
  walk fuel σ n st = Ret st' →
  ∃ new, lines st' = lines st ++ new ∧
         count_tag (TEdge c d) new
         = (count_into c new + is_node c n) * count_occ d es ∧
         (0 < count_into c new + is_node c n → id_val σ c ∈ seen st').
Proof.
  induction fuel as [|fuel IH]; intros n st st' Hrun; [done|].
  destruct (has_id σ n) eqn:Hn.
  2:{ rewrite walk_no_id in Hrun by done. injection Hrun as <-.
      exists []. rewrite app_nil_r. unfold is_node.
      destruct (decide (n = c)) as [->|_]; [congruence|].
      split; [done|]. split; [done|]. simpl. lia. }
  apply has_id_true in Hn as (Hn & i & Hi & Hti).
  rewrite walk_S, Hn in Hrun. open_bind Hrun as i' Hi'.
  rewrite Hi in Hi'. injection Hi' as <-. rewrite Hti in Hrun.
  open_bind Hrun as st1 Hst1. open_bind Hrun as esn Hesn.
  assert (Hd : ∃ dl, lines st1 = lines st ++ dl ∧
                     count_tag (TEdge c d) dl = 0 ∧ count_into c dl = 0 ∧
                     i ∈ seen st1).
  { destruct (seen_has i st) eqn:Hs.
    - injection Hst1 as <-. exists []. rewrite app_nil_r.
      repeat split; try done. by apply seen_has_true.
    - apply declare_inv in Hst1 as (j & text & Hj & ->).
      rewrite Hi in Hj. injection Hj as <-.
      exists [Line (TDecl n) text]. unfold seen_add.
      change (seen_has i (push (TDecl n) text st)) with (seen_has i st).
      rewrite Hs. simpl. repeat split; try done.
      apply elem_of_app. right. by apply list_elem_of_singleton. }
  destruct Hd as (dl & Hdl & Hdl1 & Hdl2 & Hi1).
  assert (Hloop : ∀ es' s s',
    for_each (visit (walk fuel σ) fuel σ n) es' s = Ret s' →
    ∃ new, lines s' = lines s ++ new ∧
           count_tag (TEdge c d) new
           = count_into c new * count_occ d es + is_node c n * count_occ d es' ∧
           (0 < count_into c new → id_val σ c ∈ seen s')).
  { induction es' as [|e es' IHes]; intros s s' Hfe; simpl in Hfe.
    - injection Hfe as <-. exists []. rewrite app_nil_r.
      split; [done|]. split; [|cbn; lia].
      change (count_occ d []) with 0. cbn. lia.
    - open_bind Hfe as s1 Hs1.
      pose proof (for_each_seen_mono _ _ _ _ _ _ Hfe) as Hmono.
      destruct (IHes s1 s' Hfe) as (newr & Hlr & Hcr & Hsr).
      rewrite count_occ_cons.
      destruct (has_id σ e) eqn:He.
      2:{ rewrite visit_no_id in Hs1 by done. injection Hs1 as <-.
          exists newr. split; [done|].
          destruct (decide (e = d)) as [->|_]; [congruence|].
          split; [by rewrite Hcr|done]. }
      apply has_id_true in He as (He & ei & Hei & Htei).
      unfold visit in Hs1. rewrite He, Hei in Hs1. simpl in Hs1.
      rewrite Htei in Hs1. open_bind Hs1 as l Hl.
      open_bind Hs1 as cy Hcy.
      assert (Hedge : count_tag (TEdge c d) [Line (TEdge n e) l]
                      = is_node c n * (if decide (e = d) then 1 else 0)).
      { rewrite count_tag_one. unfold is_node.
        destruct (decide (n = c)) as [->|Hnc], (decide (e = d)) as [->|Hed];
          simpl; try done.
        - by rewrite decide_True.
        - rewrite decide_False; [done|congruence].
        - rewrite decide_False; [done|congruence].
        - rewrite decide_False; [done|congruence]. }
      destruct (truthy cy) eqn:Htcy.
      + injection Hs1 as <-.
        exists ([Line (TEdge n e) l] ++ newr). simpl in Hlr.
        split; [by rewrite Hlr, <-app_assoc|].
        rewrite count_tag_app, count_into_app, Hedge, Hcr, count_into_edge.
        destruct (decide (e = c)) as [->|Hec].
        { unfold cycle_marked in c_plain. rewrite Hcy in c_plain. congruence. }
        split; [nia|]. intros Hpos. apply Hsr. lia.
      + apply IH in Hs1 as (neww & Hlw & Hcw & Hsw). simpl in Hlw.
        exists ([Line (TEdge n e) l] ++ neww ++ newr).
        split; [by rewrite Hlr, Hlw, <-!app_assoc|].
        rewrite !count_tag_app, !count_into_app, Hedge, Hcr, Hcw,
          count_into_edge.
        fold (is_node c e). split; [nia|].
        intros Hpos.
        destruct (decide (0 < count_into c newr)) as [Hr|Hr]; [by apply Hsr|].
        apply Hmono, Hsw. lia. }
  destruct (Hloop esn st1 st' Hrun) as (new & Hl & Hc & Hs).
  exists (dl ++ new). split; [by rewrite Hl, Hdl, <-app_assoc|].
  rewrite count_tag_app, count_into_app, Hdl1, Hdl2, Hc. simpl.
  split.
  - unfold is_node. destruct (decide (n = c)) as [->|Hnc]; [|nia].
    rewrite c_children in Hesn. injection Hesn as <-. nia.
  - intros Hpos. unfold is_node in Hpos.
    destruct (decide (n = c)) as [->|Hnc].
    + apply for_each_seen_mono in Hrun. apply Hrun.
      unfold id_val. by rewrite Hi.
    + apply Hs. lia.
Qed.
End traversals.

(** The same in parsed JSON, where the shared part is two objects with
    the same id: its edge is printed twice, its declaration once. *)
Example repeated_subtree_output (k : nat) :
  build_json (3 + k) repeated_example
  = Ret ("graph TD" +:+ newline +:+
         "P1[" +:+ dq +:+ "A" +:+ dq +:+ "]" +:+ newline +:+
         "P1 --> P2" +:+ newline +:+
         "P2[" +:+ dq +:+ "B" +:+ dq +:+ "]" +:+ newline +:+
         "P2 --> P3" +:+ newline +:+
         "P3[" +:+ dq +:+ "C" +:+ dq +:+ "]" +:+ newline +:+
         "P1 --> P2" +:+ newline +:+
         "P2 --> P3").
Proof. by vm_compute. Qed.

(** ** Counting edges by id *)

Lemma count_lines_app P ls ls' :
  count_lines P (ls ++ ls') = count_lines P ls + count_lines P ls'.
Proof. unfold count_lines. by rewrite filter_app, length_app. Qed.

Lemma count_lines_one P t s : count_lines P [Line t s] = b2n (P t).
Proof.
  unfold count_lines. rewrite filter_cons. simpl.
  destruct (P t); by case_decide.
Qed.

Lemma count_children_cons σ y e es :
  count_children σ y (e :: es)
  = b2n (has_id σ e && bool_decide (id_val σ e = y)) + count_children σ y es.
Proof.
  unfold count_children. rewrite filter_cons.
  destruct (has_id σ e && bool_decide (id_val σ e = y)); by case_decide.
Qed.

Section traversals_by_id.
Context (σ : heap) (root x y : val) (m : nat).

Hypothesis same_children : ∀ n es,
  entered σ root n → has_id σ n = true → id_val σ n = x →
  children_of σ n = Ret es → count_children σ y es = m.

Lemma walk_counts_by_id fuel : ∀ n st st',
  entered σ root n →
  walk fuel σ n st = Ret st' →
  ∃ new, lines st' = lines st ++ new ∧
         count_lines (edge_between σ x y) new
         = (count_lines (solid_edge_into σ x) new
            + b2n (has_id σ n && bool_decide (id_val σ n = x))) * m.
Proof.
  induction fuel as [|fuel IH]; intros n st st' HR Hrun; [done|].
  destruct (has_id σ n) eqn:Hn.
  2:{ rewrite walk_no_id in Hrun by done. injection Hrun as <-.
      exists []. by rewrite app_nil_r. }
  pose proof Hn as Hn'.
  apply has_id_true in Hn as (Hn & i & Hi & Hti).
  rewrite walk_S, Hn, Hi, bind_ret_l, Hti in Hrun.
  open_bind Hrun as st1 Hst1. open_bind Hrun as esn Hesn.
  assert (Hd : ∃ dl, lines st1 = lines st ++ dl ∧
                     count_lines (edge_between σ x y) dl = 0 ∧
                     count_lines (solid_edge_into σ x) dl = 0).
  { destruct (seen_has i st).
    - injection Hst1 as <-. exists []. by rewrite app_nil_r.
    - apply declare_inv in Hst1 as (j & text & Hj & ->).
      exists [Line (TDecl n) text]. by rewrite !count_lines_one. }
  destruct Hd as (dl & Hdl & Hdl1 & Hdl2).
  assert (Hloop : ∀ es' s s',
    (∀ e, e ∈ es' → e ∈ esn) →
    for_each (visit (walk fuel σ) fuel σ n) es' s = Ret s' →
    ∃ new, lines s' = lines s ++ new ∧
           count_lines (edge_between σ x y) new
           = count_lines (solid_edge_into σ x) new * m
             + b2n (bool_decide (id_val σ n = x)) * count_children σ y es').
  { induction es' as [|e es' IHes]; intros s s' Hsub Hfe; simpl in Hfe.
    - injection Hfe as <-. exists []. rewrite app_nil_r.
      split; [done|]. change (count_children σ y []) with 0. cbn. lia.
    - open_bind Hfe as s1 Hs1.
      destruct (IHes s1 s') as (newr & Hlr & Hcr);
        [intros e' He'; apply Hsub; by right|done|].
      rewrite count_children_cons.
      destruct (has_id σ e) eqn:He.
      2:{ rewrite visit_no_id in Hs1 by done. injection Hs1 as <-.
          exists newr. split; [done|]. rewrite Hcr. simpl. lia. }
      pose proof He as He'.
      apply has_id_true in He as (He & ei & Hei & Htei).
      unfold visit in Hs1. rewrite He, Hei, bind_ret_l, Htei in Hs1.
      open_bind Hs1 as l Hl. open_bind Hs1 as cy Hcy.
      assert (Hcm : cycle_marked σ e = truthy cy)
        by (unfold cycle_marked; by rewrite Hcy).
      destruct (truthy cy) eqn:Htcy.
      + injection Hs1 as <-.
        exists ([Line (TEdge n e) l] ++ newr). simpl in Hlr.
        split; [by rewrite Hlr, <-app_assoc|].
        rewrite !count_lines_app, !count_lines_one, Hcr. simpl.
        rewrite Hcm. simpl. rewrite andb_false_r. simpl.
        destruct (bool_decide (id_val σ n = x)),
                 (bool_decide (id_val σ e = y)); simpl; lia.
      + assert (entered σ root e) as Hent.
        { destruct HR as [Hr _]. split; [|by right].
          eapply reach_snoc; [exact Hr|exact Hesn|]. apply Hsub. left. }
        destruct (IH e _ _ Hent Hs1) as (neww & Hlw & Hcw). simpl in Hlw.
        exists ([Line (TEdge n e) l] ++ neww ++ newr).
        split; [by rewrite Hlr, Hlw, <-!app_assoc|].
        rewrite !count_lines_app, !count_lines_one, Hcr, Hcw. simpl.
        rewrite Hcm, He'. simpl. rewrite andb_true_r.
        destruct (bool_decide (id_val σ n = x)),
                 (bool_decide (id_val σ e = x)),
                 (bool_decide (id_val σ e = y)); simpl; nia. }
  destruct (Hloop esn st1 st') as (new & Hl & Hc); [done|done|].
  exists (dl ++ new). split; [by rewrite Hl, Hdl, <-app_assoc|].
  rewrite !count_lines_app, Hdl1, Hdl2, Hc. simpl.
  destruct (bool_decide (id_val σ n = x)) eqn:Hx; simpl; [|lia].
  apply bool_decide_eq_true in Hx.
  rewrite (same_children n esn HR Hn' Hx Hesn). lia.
Qed.
End traversals_by_id.

(** Edge lines repeat with every traversal, counted by id: if the
    nodes with id [x] that [walk] enters all have [m] children with id
    [y], the output holds [m] edge lines from [x] to [y] for each time a
    node with id [x] is entered, while [x] is declared at most once. *)
Lemma edges_repeat_by_id fuel σ root ls x y m :
  build_lines fuel σ root = Ret ls →
  (∀ n es,
     reach σ root n → n = root ∨ cycle_marked σ n = false →
     has_id σ n = true → id_val σ n = x →
     children_of σ n = Ret es → count_children σ y es = m) →
  count_lines (edge_between σ x y) ls = traversals σ root x ls * m ∧
  length (filter (λ i, i = x) (decl_ids σ ls)) ≤ 1.
Proof.
  intros Hb Hsame.
  pose proof (build_decl_nodup _ _ _ _ Hb) as Hnd.
  apply (count_nodup x) in Hnd as [Hle _]. split; [|done].
  unfold build_lines in Hb. open_bind Hb as st Hst. injection Hb as <-.
  destruct (walk_counts_by_id σ root x y m) with (fuel := fuel) (n := root)
    (st := init) (st' := st) as (new & Hl & Hc).
  - intros n es [Hr Hn]. by apply Hsame.
  - split; [apply reach_refl|by left].
  - done.
  - unfold traversals. rewrite Hl.
    change (lines init) with [Line THeader "graph TD"].
    by rewrite !count_lines_app, !count_lines_one, Hc.
Qed.

(** On the parsed example the part with id 2 is entered twice, once per
    copy, and its edge to the part with id 3 is printed twice. *)
Example repeated_example_counts :
  ∃ ls, build_lines 3 repeated_heap (VRef 7) = Ret ls ∧
        traversals repeated_heap (VRef 7) (VNum 2) ls = 2 ∧
        count_lines (edge_between repeated_heap (VNum 2) (VNum 3)) ls = 2 ∧
        length (filter (λ i, i = VNum 2) (decl_ids repeated_heap ls)) ≤ 1.
Proof.
  eexists. split; [vm_compute; reflexivity|].
  split; [vm_compute; reflexivity|].
  assert (Hn : nodes_under 3 repeated_heap (VRef 7)
               = Some [VRef 7; VRef 2; VRef 0; VRef 5; VRef 3])
    by (vm_compute; reflexivity).
  pose proof (nodes_under_reach _ _ _ _ Hn) as Hr.
  lazymatch goal with
  | |- count_lines _ ?ls = _ ∧ _ =>
      destruct (edges_repeat_by_id 3 repeated_heap (VRef 7) ls
                  (VNum 2) (VNum 3) 1) as [Hc Hd]
  end; [vm_compute; reflexivity| |].
  - intros n es Hn' _ _ Hx Hes. apply Hr in Hn'.
    repeat (apply elem_of_cons in Hn' as [->|Hn'];
            [try (by vm_compute in Hx);
             vm_compute in Hes; injection Hes as <-; by vm_compute|]).
    by apply elem_of_nil in Hn'.
  - split; [|exact Hd]. rewrite Hc. vm_compute; reflexivity.
Qed.

(** ** Termination on acyclic heaps *)

Lemma bind_terminates {A B} (m : outcome A) (f : A → outcome B) :
  terminates m → (∀ a, m = Ret a → terminates (f a)) → terminates (m ≫= f).
Proof.
  unfold terminates. destruct m as [a| |]; simpl; [|done|done].
  intros _ H. by apply H.
Qed.

Lemma get_terminates σ n k : terminates (get σ n k).
Proof.
  unfold terminates, get. destruct n as [| |b|z|s|l]; try done.
  by destruct (σ !! l) as [[fs|es]|].
Qed.

Lemma join_terminates (ts : val → outcome string) sep es :
  (∀ e, e ∈ es → terminates (ts e)) → terminates (join ts sep es).
Proof.
  induction es as [|e es IH]; intros H; [done|]. simpl.
  apply bind_terminates.
  - unfold join_elem. destruct (nullish e); [done|]. apply H. left.
  - intros s _. destruct es as [|e' es]; [done|].
    apply bind_terminates; [|done]. apply IH. intros x Hx. apply H. by right.
Qed.

Lemma map_entries_terminates (f : val → outcome val) es :
  (∀ e, e ∈ es → terminates (f e)) → terminates (map_entries f es).
Proof.
  induction es as [|e es IH]; intros H; [done|]. simpl.
  apply bind_terminates; [apply H; left|]. intros v _.
  apply bind_terminates; [|done]. apply IH. intros x Hx. apply H. by right.
Qed.

Lemma map_entries_elem (f : val → outcome val) es vs v :
  map_entries f es = Ret vs → v ∈ vs → ∃ e, e ∈ es ∧ f e = Ret v.
Proof.
  revert vs. induction es as [|e es IH]; intros vs H Hv; simpl in H.
  - injection H as <-. by apply elem_of_nil in Hv.
  - open_bind H as w Hw. open_bind H as ws Hws. injection H as <-.
    apply elem_of_cons in Hv as [->|Hv].
    + exists e. split; [left|done].
    + destruct (IH ws Hws Hv) as (e' & He' & Hf). exists e'. split; [by right|done].
Qed.

Lemma for_each_terminates (f : val → state → outcome state) es :
  (∀ e s, e ∈ es → terminates (f e s)) → ∀ st, terminates (for_each f es st).
Proof.
  induction es as [|e es IH]; intros H st; [done|]. simpl.
  apply bind_terminates; [apply H; left|]. intros s _.
  apply IH. intros x s' Hx. apply H. by right.
Qed.

Section ranked_heap.
Context (σ : heap) (rank : loc → nat).
Hypothesis σ_ranked : ranked σ rank.

Lemma assoc_elem k fs v : assoc k fs = Some v → v ∈ fs.*2.
Proof.
  induction fs as [|[k' w] fs IH]; simpl; [done|].
  destruct (String.eqb k k').
  - intros [= ->]. left.
  - intros H. right. by apply IH.
Qed.

Lemma get_need n k v : get σ n k = Ret v → need rank v ≤ need rank n - 1.
Proof.
  unfold get. destruct n as [| |b|z|s|l]; try done;
    try (intros [= <-]; simpl; lia).
  destruct (σ !! l) as [[fs|es]|] eqn:Hl; try (intros [= <-]; simpl; lia).
  intros [= <-]. destruct (assoc k fs) as [v|] eqn:Hv; simpl; [|lia].
  destruct v as [| |b|z|s|l']; simpl; try lia.
  apply assoc_elem in Hv.
  pose proof (σ_ranked l (CObj fs) l' Hl Hv). lia.
Qed.

Lemma as_array_need v es e :
  as_array σ v = Some es → e ∈ es → need rank e ≤ need rank v - 1.
Proof.
  unfold as_array. destruct v as [| |b|z|s|l]; try done.
  destruct (σ !! l) as [[fs|es']|] eqn:Hl; try done.
  intros [= <-] He. destruct e as [| |b|z|s|l']; simpl; try lia.
  pose proof (σ_ranked l (CArr es') l' Hl He). lia.
Qed.

Lemma to_string_terminates fuel : ∀ v,
  need rank v ≤ fuel → terminates (to_string fuel σ v).
Proof.
  induction fuel as [|fuel IH]; intros v Hv.
  - destruct v as [| |[]|z|s|l]; try done. simpl in Hv. lia.
  - destruct v as [| |[]|z|s|l]; try done.
    unfold to_string, to_string_with.
    destruct (σ !! l) as [[fs|es]|] eqn:Hl; [|  |done].
    + by destruct (assoc "toString" fs).
    + simpl. apply join_terminates. intros e He.
      apply (IH e).
      assert (as_array σ (VRef l) = Some es) as Ha
        by (unfold as_array; by rewrite Hl).
      pose proof (as_array_need _ _ _ Ha He). simpl in *. lia.
Qed.

Lemma id_terminates fuel n :
  need rank n ≤ S fuel → terminates (id fuel σ n).
Proof.
  intros Hn. unfold id. apply bind_terminates; [apply get_terminates|].
  intros i Hi. apply get_need in Hi.
  apply bind_terminates; [|done]. apply to_string_terminates. lia.
Qed.

Lemma subst_entry_need s v :
  subst_entry σ s = Ret v → need rank v ≤ need rank s - 1.
Proof.
  unfold subst_entry. intros H. open_bind H as a Ha.
  destruct (truthy a); [injection H as <-; by apply get_need in Ha|].
  open_bind H as b Hb.
  destruct (truthy b); [injection H as <-; by apply get_need in Hb|].
  by apply get_need in H.
Qed.

Lemma subst_entry_terminates s : terminates (subst_entry σ s).
Proof.
  unfold subst_entry. apply bind_terminates; [apply get_terminates|].
  intros a _. destruct (truthy a); [done|].
  apply bind_terminates; [apply get_terminates|].
  intros b _. destruct (truthy b); [done|]. apply get_terminates.
Qed.

Lemma nodeLabel_terminates fuel n :
  need rank n ≤ S fuel → terminates (nodeLabel fuel σ n).
Proof.
  intros Hn. unfold nodeLabel.
  apply bind_terminates; [apply get_terminates|]. intros nm Hnm.
  apply get_need in Hnm.
  apply bind_terminates; [apply get_terminates|]. intros iv Hiv.
  apply get_need in Hiv.
  apply bind_terminates.
  { destruct (truthy iv); [|done].
    apply bind_terminates; [|done]. apply to_string_terminates. lia. }
  intros ipn _.
  apply bind_terminates; [apply get_terminates|]. intros cv _.
  apply bind_terminates; [apply get_terminates|]. intros sv Hsv.
  apply get_need in Hsv.
  apply bind_terminates.
  { destruct (as_array σ sv) as [[|e es]|] eqn:Ha; try done.
    apply bind_terminates.
    - apply map_entries_terminates. intros; apply subst_entry_terminates.
    - intros vs Hvs. apply bind_terminates; [|done].
      apply join_terminates. intros v Hv.
      destruct (map_entries_elem _ _ _ _ Hvs Hv) as (s & Hs & Hsv').
      apply subst_entry_need in Hsv'.
      pose proof (as_array_need _ _ _ Ha Hs).
      apply to_string_terminates. lia. }
  intros subs _. apply bind_terminates; [|done].
  apply to_string_terminates. destruct (truthy nm); [lia|simpl; lia].
Qed.

Lemma declare_terminates fuel n st :
  need rank n ≤ S fuel → terminates (declare fuel σ n st).
Proof.
  intros Hn. unfold declare.
  apply bind_terminates; [by apply id_terminates|]. intros p _.
  apply bind_terminates; [by apply nodeLabel_terminates|]. intros lbl _.
  apply bind_terminates.
  { unfold escape. apply bind_terminates; [|done].
    by destruct (truthy (VStr lbl)). }
  intros e _. apply bind_terminates; [apply get_terminates|done].
Qed.

Lemma edge_line_terminates fuel n c :
  need rank n ≤ S fuel → need rank c ≤ S fuel →
  terminates (edge_line fuel σ n c).
Proof.
  intros Hn Hc. unfold edge_line.
  apply bind_terminates.
  { unfold qty.
    apply bind_terminates; [apply get_terminates|]. intros q Hq.
    apply get_need in Hq.
    destruct (nullish q); [done|]. apply bind_terminates; [|done].
    apply to_string_terminates. lia. }
  intros ann _.
  apply bind_terminates; [apply get_terminates|]. intros cyc _.
  apply bind_terminates; [by apply id_terminates|]. intros p _.
  apply bind_terminates; [by apply id_terminates|]. done.
Qed.

Lemma children_need n es c :
  children_of σ n = Ret es → c ∈ es → need rank c + 2 ≤ need rank n.
Proof.
  unfold children_of. intros H Hc. open_bind H as ch Hch.
  apply get_need in Hch. destruct (truthy ch).
  - destruct (as_array σ ch) as [es'|] eqn:Ha; [|done].
    injection H as <-. pose proof (as_array_need _ _ _ Ha Hc) as Hle.
    destruct ch as [| |b|z|s|l]; try done. simpl in *. lia.
  - injection H as <-. by apply elem_of_nil in Hc.
Qed.

Lemma children_terminates n : terminates (children_of σ n).
Proof.
  unfold children_of. apply bind_terminates; [apply get_terminates|].
  intros ch _. destruct (truthy ch); [|done]. by destruct (as_array σ ch).
Qed.

Lemma walk_terminates fuel : ∀ n st,
  need rank n < fuel → terminates (walk fuel σ n st).
Proof.
  induction fuel as [|fuel IH]; intros n st Hn; [lia|].
  rewrite walk_S. destruct (truthy n); [|done].
  apply bind_terminates; [apply get_terminates|]. intros i _.
  destruct (truthy i); [|done].
  apply bind_terminates.
  { destruct (seen_has i st); [done|]. apply declare_terminates. lia. }
  intros st1 _.
  apply bind_terminates; [apply children_terminates|]. intros es Hes.
  apply for_each_terminates. intros c s Hc.
  pose proof (children_need _ _ _ Hes Hc) as Hle.
  unfold visit. destruct (truthy c); [|done].
  apply bind_terminates; [apply get_terminates|]. intros ci _.
  destruct (truthy ci); [|done].
  apply bind_terminates; [apply edge_line_terminates; lia|]. intros l _.
  apply bind_terminates; [apply get_terminates|]. intros cy _.
  destruct (truthy cy); [done|]. apply IH. lia.
Qed.
End ranked_heap.

Lemma buildMermaid_terminates σ rank root fuel :
  ranked σ rank → need rank root < fuel →
  terminates (buildMermaid fuel σ root).
Proof.
  intros Hr Hf. unfold buildMermaid, build_lines.
  apply bind_terminates; [|done]. apply bind_terminates; [|done].
  by apply (walk_terminates σ rank).
Qed.

(** A heap that is ranked by the location itself, checked by
    computation. *)
Lemma ranked_by_check (σ : heap) (rank : loc → nat) :
  map_Forall (λ l c, Forall (λ v, need rank v ≤ rank l) (cell_vals c)) σ →
  ranked σ rank.
Proof.
  intros H l c l' Hl Hin. specialize (H l c Hl).
  rewrite Forall_forall in H. apply (H (VRef l') Hin).
Qed.

(** ** Parsed JSON is acyclic *)

Lemma alloc_wf_insert σ next c :
  alloc_wf (σ, next) →
  Forall (λ v, need (λ l, l) v ≤ next) (cell_vals c) →
  alloc_wf (<[next := c]> σ, S next).
Proof.
  intros Hwf Hc l c' Hl. simpl in *.
  destruct (decide (next = l)) as [<-|Hne].
  - rewrite lookup_insert_eq in Hl. injection Hl as <-. split; [lia|done].
  - rewrite lookup_insert_ne in Hl by done.
    destruct (Hwf l c' Hl) as [Hlt Hv]. simpl in Hlt. split; [lia|done].
Qed.

Lemma alloc_list_ok es :
  Forall alloc_ok es →
  ∀ s, alloc_wf s →
       alloc_wf (alloc_list alloc es s).2 ∧
       s.2 ≤ (alloc_list alloc es s).2.2 ∧
       Forall (λ v, need (λ l, l) v ≤ (alloc_list alloc es s).2.2)
         (alloc_list alloc es s).1.
Proof.
  induction 1 as [|e es He Hes IH]; intros s Hs; simpl.
  - split; [done|]. split; [done|]. constructor.
  - destruct (He s Hs) as (H1 & H2 & H3).
    destruct (alloc e s) as [v s1]. simpl in *.
    destruct (IH s1 H1) as (H4 & H5 & H6).
    destruct (alloc_list alloc es s1) as [vs s2]. simpl in *.
    split; [done|]. split; [lia|]. constructor; [lia|done].
Qed.

Lemma alloc_fields_ok fs :
  Forall (λ kv, alloc_ok kv.2) fs →
  ∀ s, alloc_wf s →
       alloc_wf (alloc_fields alloc fs s).2 ∧
       s.2 ≤ (alloc_fields alloc fs s).2.2 ∧
       Forall (λ v, need (λ l, l) v ≤ (alloc_fields alloc fs s).2.2)
         (alloc_fields alloc fs s).1.*2.
Proof.
  induction 1 as [|[k e] fs He Hes IH]; intros s Hs; simpl.
  - split; [done|]. split; [done|]. constructor.
  - simpl in He. destruct (He s Hs) as (H1 & H2 & H3).
    destruct (alloc e s) as [v s1]. simpl in *.
    destruct (IH s1 H1) as (H4 & H5 & H6).
    destruct (alloc_fields alloc fs s1) as [vs s2]. simpl in *.
    split; [done|]. split; [lia|]. constructor; [lia|done].
Qed.

Lemma alloc_all_ok j : alloc_ok j.
Proof.
  induction j as [|b|z|t|es IH|fs IH] using json_nested_ind;
    intros s Hs; try (simpl; split; [done|split; [done|lia]]).
  - destruct (alloc_list_ok es IH s Hs) as (H1 & H2 & H3). simpl.
    destruct (alloc_list alloc es s) as [vs [σ next]]. simpl in *.
    split; [by apply alloc_wf_insert|]. split; lia.
  - destruct (alloc_fields_ok fs IH s Hs) as (H1 & H2 & H3). simpl.
    destruct (alloc_fields alloc fs s) as [vs [σ next]]. simpl in *.
    split; [by apply alloc_wf_insert|]. split; lia.
Qed.

Lemma load_ranked j :
  ranked (load j).2 (λ l, l) ∧
  ∃ bound, need (λ l, l) (load j).1 ≤ bound.
Proof.
  unfold load. destruct (alloc_all_ok j (∅, 0)) as (Hwf & _ & Hn).
  { intros l c Hl. simpl in Hl. by rewrite lookup_empty in Hl. }
  destruct (alloc j (∅, 0)) as [v [σ next]]. simpl in *. split.
  - intros l c l' Hl Hin. destruct (Hwf l c Hl) as [_ Hv].
    rewrite Forall_forall in Hv. specialize (Hv _ Hin). simpl in Hv. lia.
  - by exists next.
Qed.

(** Every parsed JSON value is an acyclic input: with enough fuel the
    builder returns or throws on it. *)
Lemma build_json_terminates j :
  ∃ fuel0, ∀ fuel, fuel0 ≤ fuel → build_json fuel j ≠ OutOfFuel.
Proof.
  destruct (load_ranked j) as [Hr [bound Hb]].
  exists (S bound). intros fuel Hf. unfold build_json.
  destruct (load j) as [v σ]. simpl in *.
  apply (buildMermaid_terminates σ (λ l, l) v fuel Hr). lia.
Qed.

(** ** A cycle of expandable edges is never left *)

Lemma for_each_elem_returns (f : val → state → outcome state) es e :
  e ∈ es → ∀ st st', for_each f es st = Ret st' → ∃ s s', f e s = Ret s'.
Proof.
  induction es as [|x es IH]; intros He st st' Hrun.
  - by apply elem_of_nil in He.
  - simpl in Hrun. open_bind Hrun as s1 Hs1.
    apply elem_of_cons in He as [->|He]; [eauto|]. by eapply IH.
Qed.

Lemma walk_descends fuel σ n c st st' :
  walk (S fuel) σ n st = Ret st' → walk_edge σ n c →
  ∃ s s', walk fuel σ c s = Ret s'.
Proof.
  intros Hrun (Hn & es & Hes & Hc & Hcid & Hcy).
  apply has_id_true in Hn as (Hn & i & Hi & Hti).
  rewrite walk_S, Hn, Hi, bind_ret_l, Hti in Hrun.
  open_bind Hrun as st1 Hst1. rewrite Hes, bind_ret_l in Hrun.
  destruct (for_each_elem_returns _ _ _ Hc _ _ Hrun) as (s & s' & Hv).
  unfold visit in Hv.
  apply has_id_true in Hcid as (Hct & ci & Hci & Htci).
  rewrite Hct, Hci, bind_ret_l, Htci in Hv.
  open_bind Hv as l Hl. open_bind Hv as cy Hcy'.
  unfold cycle_marked in Hcy. rewrite Hcy' in Hcy. rewrite Hcy in Hv. eauto.
Qed.

(** Whatever the fuel, [walk] does not return on a node that lies on a
    cycle of edges it expands. *)
Lemma walk_on_cycle_never_returns σ fuel : ∀ n st,
  tc (walk_edge σ) n n → returns (walk fuel σ n st) = false.
Proof.
  induction fuel as [|fuel IH]; intros n st Hcyc; [done|].
  destruct (walk (S fuel) σ n st) as [st'| |] eqn:Hrun; [|done|done].
  exfalso. inversion Hcyc as [? ? Hnn|? c ? Hnc Hcn]; subst.
  - destruct (walk_descends _ _ _ _ _ _ Hrun Hnn) as (s & s' & Hs).
    specialize (IH n s Hcyc). by rewrite Hs in IH.
  - destruct (walk_descends _ _ _ _ _ _ Hrun Hnc) as (s & s' & Hs).
    assert (tc (walk_edge σ) c c) as Hcc by (eapply tc_r; eauto).
    specialize (IH c s Hcc). by rewrite Hs in IH.
Qed.

(** ** C3: [escape] *)

Lemma append_nil (t : string) : "" +:+ t = t.
Proof. reflexivity. Qed.

Lemma append_cons (a : ascii) (s t : string) :
  String a s +:+ t = String a (s +:+ t).
Proof. reflexivity. Qed.

Lemma replace_quote_id s : replace_all dquote (String dquote "") s = s.
Proof.
  induction s as [|a s IH]; [done|]. cbn.
  destruct (Ascii.eqb a dquote) eqn:Ha.
  - apply Ascii.eqb_eq in Ha as ->.
    by rewrite append_cons, append_nil, IH.
  - by rewrite IH.
Qed.

Lemma escape_str_map s : escape_str s = string_map unbracket s.
Proof.
  unfold escape_str. rewrite replace_quote_id.
  induction s as [|a s IH]; [done|]. cbn. unfold unbracket.
  destruct (Ascii.eqb a "[") eqn:Ha.
  - rewrite append_cons, append_nil. cbn. by rewrite IH.
  - cbn. destruct (Ascii.eqb a "]") eqn:Hb.
    + by rewrite append_cons, append_nil, IH.
    + by rewrite IH.
Qed.

Lemma escape_VStr fuel σ s :
  escape fuel σ (VStr s) = Ret (string_map unbracket s).
Proof.
  unfold escape. destruct s as [|a s]; [done|].
  change (truthy (VStr (String a s))) with true. simpl.
  by rewrite escape_str_map.
Qed.

(** C3. [escape] changes square brackets into parentheses and nothing
    else: the replacement of the double quote puts a double quote back,
    so every double quote of the label reaches the declaration line
    unescaped. *)
Theorem escape_keeps_double_quotes :
  (∀ fuel σ s, escape fuel σ (VStr s) = Ret (string_map unbracket s)) ∧
  unbracket dquote = dquote ∧
  escape O ∅ (VStr ("a" +:+ dq +:+ "b[c]")) = Ret ("a" +:+ dq +:+ "b(c)") ∧
  build_json 1 quoted_name
  = Ret ("graph TD" +:+ newline +:+
         "P1[" +:+ dq +:+ "a" +:+ dq +:+ "b(c)" +:+ dq +:+ "]").
Proof.
  split; [|by vm_compute].
  intros fuel σ s. apply escape_VStr.
Qed.

(** Every declaration line of the output carries its label with the
    double quotes left in. *)
Lemma build_decl_text fuel σ root ls :
  build_lines fuel σ root = Ret ls → Forall (decl_text_ok σ) ls.
Proof.
  unfold build_lines. intros H. open_bind H as st Hst. injection H as <-.
  refine (walk_inv σ (λ _, True) (λ s, Forall (decl_text_ok σ) (lines s))
            _ _ _ fuel root init st I _ Hst).
  - done.
  - intros f n s s' _ Hn _ Hd Hs. unfold declare in Hd.
    open_bind Hd as p Hp. open_bind Hd as lbl Hlbl.
    open_bind Hd as e He. open_bind Hd as i Hi.
    injection Hd as <-. rewrite escape_VStr in He. injection He as <-.
    simpl. apply Forall_app. split; [done|]. apply Forall_singleton.
    unfold decl_text_ok. simpl. split; [done|]. by exists f, p, lbl.
  - intros f n c es l s _ _ _ _ _ _ Hs. simpl.
    apply Forall_app. split; [done|]. by apply Forall_singleton.
  - by apply Forall_singleton.
Qed.

(** The header comes first. *)
Lemma build_lines_header fuel σ root ls :
  build_lines fuel σ root = Ret ls →
  ∃ rest, ls = Line THeader "graph TD" :: rest.
Proof.
  unfold build_lines. intros H. open_bind H as st Hst. injection H as <-.
  refine (walk_inv σ (λ _, True)
            (λ s, ∃ rest, lines s = Line THeader "graph TD" :: rest)
            _ _ _ fuel root init st I _ Hst).
  - done.
  - intros f n s s' _ _ _ Hd [rest Hs].
    apply declare_inv in Hd as (i & text & Hi & ->). simpl.
    rewrite Hs. by eexists.
  - intros f n c es l s _ _ _ _ _ _ [rest Hs]. simpl. rewrite Hs. by eexists.
  - by eexists.
Qed.

(** An absent label is escaped to the empty string. *)
Lemma escape_absent fuel σ :
  escape fuel σ VUndef = Ret "" ∧ escape fuel σ VNull = Ret "".
Proof. done. Qed.

(** ** C5: the two-node example *)

(** C5, as stated, fails: on the example as the specification writes it
    the entry of [children] has no [id] of its own, the edge is skipped,
    and the builder returns the header and the declaration of the root
    only. *)
Lemma spec_example_not_four_lines :
  (∀ fuel, build_json fuel spec_example ≠ Ret four_lines) ∧
  build_json 1 spec_example
  = Ret ("graph TD" +:+ newline +:+ "P1[" +:+ dq +:+ "A" +:+ dq +:+ "]").
Proof.
  split; [|by vm_compute].
  intros [|k]; vm_compute; intros H; discriminate H.
Qed.

(** C5, amended. When the entry of [children] is itself the child node
    and carries the quantity, the builder returns exactly the four
    lines: header, declaration of the root, annotated edge, declaration
    of the child. *)
Theorem flat_example_four_lines (k : nat) :
  build_json (2 + k) flat_example = Ret four_lines.
Proof. by vm_compute. Qed.

(** ** C8: a malformed entry of [substitutes] *)

(** C8. A [null] entry in [substitutes] is not skipped: reading its
    [name] throws, and the builder returns no string at any fuel. *)
Theorem null_substitute_throws :
  (∀ k, build_json (S k) null_substitute = Throw) ∧
  (∀ fuel, returns (build_json fuel null_substitute) = false).
Proof.
  split; [intros k; by vm_compute|].
  intros [|k]; by vm_compute.
Qed.

(** * Further properties of the builder *)

(** ** The returned string and the lines behind it *)

Lemma join_lines_concat ts : join_lines ts = String.concat newline ts.
Proof.
  induction ts as [|t ts IH]; [done|].
  destruct ts as [|t' ts]; [done|].
  change (join_lines (t :: t' :: ts))
    with (t +:+ newline +:+ join_lines (t' :: ts)).
  by rewrite IH.
Qed.

(** Every pushed line holds the text the source builds for it. *)
Lemma build_line_ok fuel σ root ls :
  build_lines fuel σ root = Ret ls → Forall (line_ok σ) ls.
Proof.
  unfold build_lines. intros H. open_bind H as st Hst. injection H as <-.
  refine (walk_inv σ (λ _, True) (λ s, Forall (line_ok σ) (lines s))
            _ _ _ fuel root init st I _ Hst).
  - done.
  - intros f n s s' _ Hn _ Hd Hs. unfold declare in Hd.
    open_bind Hd as p Hp. open_bind Hd as lbl Hlbl.
    open_bind Hd as e He. open_bind Hd as i Hi.
    injection Hd as <-. rewrite escape_VStr in He. injection He as <-.
    simpl. apply Forall_app. split; [done|]. apply Forall_singleton.
    unfold line_ok. simpl. split; [done|]. exists f, p, lbl.
    by rewrite escape_str_map.
  - intros f n c es l s _ _ _ _ Hc Hl Hs. simpl.
    apply Forall_app. split; [done|]. apply Forall_singleton.
    unfold line_ok. simpl. split; [done|].
    apply edge_line_inv in Hl
      as (cyc & ann & from & to & Hcyc & Hann & Hfrom & Hto & ->).
    exists f, from, ann, to. repeat split; try done.
    unfold cycle_marked, connector. by rewrite Hcyc.
  - by apply Forall_singleton.
Qed.

(** What [buildMermaid] returns is the texts of the pushed lines,
    joined by line breaks. *)
Lemma buildMermaid_lines fuel σ root s :
  buildMermaid fuel σ root = Ret s →
  ∃ ls, build_lines fuel σ root = Ret ls ∧
        s = String.concat newline (line_text <$> ls) ∧
        Forall (line_ok σ) ls.
Proof.
  unfold buildMermaid. intros H. open_bind H as ls Hls. injection H as <-.
  exists ls. split; [done|]. split; [apply join_lines_concat|].
  by eapply build_line_ok.
Qed.

(** Every line comes from the walk of a node reached through expanded
    edges. *)
Lemma build_origin_ok fuel σ root ls :
  build_lines fuel σ root = Ret ls → Forall (origin_ok σ root) ls.
Proof.
  unfold build_lines. intros H. open_bind H as st Hst. injection H as <-.
  refine (walk_inv σ (λ n, rtc (walk_edge σ) root n)
            (λ s, Forall (origin_ok σ root) (lines s))
            _ _ _ fuel root init st _ _ Hst).
  - intros n c es Hn Hid Hes Hc Hcid Hcy.
    eapply rtc_r; [exact Hn|]. split; [done|]. by exists es.
  - intros f n s s' Hn _ _ Hd Hs.
    apply declare_inv in Hd as (i & text & Hi & ->). simpl.
    apply Forall_app. split; [done|]. by apply Forall_singleton.
  - intros f n c es l s Hn _ Hes Hc Hcid _ Hs. simpl.
    apply Forall_app. split; [done|]. apply Forall_singleton.
    unfold origin_ok. simpl. split; [done|]. split; [by exists es|done].
  - apply rtc_refl.
  - by apply Forall_singleton.
Qed.

(** [walk] only appends to [lines]. *)
Lemma walk_lines_mono fuel σ n st st' :
  walk fuel σ n st = Ret st' → lines st ⊆ lines st'.
Proof.
  intros Hrun.
  refine (walk_inv σ (λ _, True) (λ s, lines st ⊆ lines s)
            _ _ _ fuel n st st' I _ Hrun); [done| | |done].
  - intros f m s s' _ _ _ Hd Hs.
    apply declare_inv in Hd as (i & text & Hi & ->). simpl.
    intros x Hx. apply elem_of_app. left. by apply Hs.
  - intros f m c es l s _ _ _ _ _ _ Hs. simpl.
    intros x Hx. apply elem_of_app. left. by apply Hs.
Qed.

Lemma visit_lines_mono fuel σ n c st st' :
  visit (walk fuel σ) fuel σ n c st = Ret st' → lines st ⊆ lines st'.
Proof.
  unfold visit. intros Hv.
  destruct (truthy c); [|by injection Hv as <-].
  open_bind Hv as ci Hci.
  destruct (truthy ci); [|by injection Hv as <-].
  open_bind Hv as l Hl. open_bind Hv as cy Hcy.
  assert (lines st ⊆ lines (push (TEdge n c) l st)) as Hp.
  { simpl. intros x Hx. apply elem_of_app. by left. }
  destruct (truthy cy); [by injection Hv as <-|].
  apply walk_lines_mono in Hv. by etrans.
Qed.

Lemma for_each_lines_mono fuel σ n es : ∀ st st',
  for_each (visit (walk fuel σ) fuel σ n) es st = Ret st' →
  lines st ⊆ lines st'.
Proof.
  induction es as [|e es IH]; intros st st' Hrun; simpl in Hrun.
  - by injection Hrun as <-.
  - open_bind Hrun as st1 Hst1. apply visit_lines_mono in Hst1.
    apply IH in Hrun. by etrans.
Qed.

(** A walk of [n] that returns has declared the id of every node
    expanded from [n], and pushed an edge to each of their entries that
    carries an id. *)
Lemma walk_complete σ fuel : ∀ n st st',
  walk fuel σ n st = Ret st' →
  ∀ m, rtc (walk_edge σ) n m → has_id σ m = true →
       id_val σ m ∈ seen st' ∧
       ∀ c, child_of σ m c → has_id σ c = true →
            ∃ text, Line (TEdge m c) text ∈ lines st'.
Proof.
  induction fuel as [|fuel IH]; intros n st st' Hrun m Hm Hmid; [done|].
  assert (Hnid : has_id σ n = true).
  { apply rtc_inv in Hm as [->|(y & [Hn _] & _)]; done. }
  apply has_id_true in Hnid as (Hn & i & Hi & Hti).
  rewrite walk_S, Hn, Hi, bind_ret_l, Hti in Hrun.
  open_bind Hrun as st1 Hst1. open_bind Hrun as es Hes.
  assert (Hi1 : i ∈ seen st1).
  { destruct (seen_has i st) eqn:Hs.
    - injection Hst1 as <-. by apply seen_has_true.
    - apply declare_inv in Hst1 as (j & text & Hj & ->).
      rewrite Hi in Hj. injection Hj as <-. unfold seen_add.
      change (seen_has i (push (TDecl n) text st)) with (seen_has i st).
      rewrite Hs. simpl. apply elem_of_app. right.
      by apply list_elem_of_singleton. }
  assert (Hloop : ∀ es' s s',
    for_each (visit (walk fuel σ) fuel σ n) es' s = Ret s' →
    ∀ c, c ∈ es' → has_id σ c = true →
      (∃ text, Line (TEdge n c) text ∈ lines s') ∧
      (cycle_marked σ c = false →
       ∀ m', rtc (walk_edge σ) c m' → has_id σ m' = true →
             id_val σ m' ∈ seen s' ∧
             ∀ d, child_of σ m' d → has_id σ d = true →
                  ∃ text, Line (TEdge m' d) text ∈ lines s')).
  { induction es' as [|e es' IHes]; intros s s' Hfe c Hc Hcid.
    - by apply elem_of_nil in Hc.
    - simpl in Hfe. open_bind Hfe as s1 Hs1.
      apply elem_of_cons in Hc as [->|Hc]; [|by eapply IHes].
      pose proof (for_each_seen_mono _ _ _ _ _ _ Hfe) as Hsm.
      pose proof (for_each_lines_mono _ _ _ _ _ _ Hfe) as Hlm.
      pose proof Hcid as Hcid'.
      apply has_id_true in Hcid' as (He1 & ei & Hei & Htei).
      unfold visit in Hs1. rewrite He1, Hei, bind_ret_l, Htei in Hs1.
      open_bind Hs1 as l Hl. open_bind Hs1 as cy Hcy.
      assert (Line (TEdge n e) l ∈ lines (push (TEdge n e) l s)) as Hin.
      { simpl. apply elem_of_app. right. by apply list_elem_of_singleton. }
      destruct (truthy cy) eqn:Htcy.
      + injection Hs1 as <-. split; [exists l; by apply Hlm|].
        unfold cycle_marked. rewrite Hcy, Htcy. done.
      + split.
        * exists l. apply Hlm. by eapply walk_lines_mono.
        * intros _ m' Hm' Hm'id.
          destruct (IH _ _ _ Hs1 m' Hm' Hm'id) as [H1 H2].
          split; [by apply Hsm|].
          intros d Hd Hdid. destruct (H2 d Hd Hdid) as [text Ht].
          exists text. by apply Hlm. }
  apply rtc_inv in Hm as [<-|(y & (_ & es' & Hes' & Hy & Hyid & Hycy) & Hym)].
  - split.
    + apply for_each_seen_mono in Hrun. unfold id_val. rewrite Hi.
      by apply Hrun.
    + intros c (es' & Hes' & Hc) Hcid. rewrite Hes in Hes'.
      injection Hes' as <-.
      by destruct (Hloop es st1 st' Hrun c Hc Hcid) as [H _].
  - rewrite Hes in Hes'. injection Hes' as <-.
    destruct (Hloop es st1 st' Hrun y Hy Hyid) as [_ H].
    by apply H.
Qed.

Lemma build_complete fuel σ root ls n :
  build_lines fuel σ root = Ret ls → expanded σ root n →
  id_val σ n ∈ decl_ids σ ls ∧
  ∀ c, child_of σ n c → has_id σ c = true →
       ∃ text, Line (TEdge n c) text ∈ ls.
Proof.
  unfold build_lines. intros H [Hid Hn]. open_bind H as st Hst.
  injection H as <-.
  assert (decl_seen σ st) as [-> _].
  { eapply walk_decl_seen; [|exact Hst]. split; [done|]. apply NoDup_nil_2. }
  by eapply walk_complete.
Qed.

(** ** Parsed JSON is a tree *)

Lemma alloc_wf_refd (s : heap * loc) l : alloc_wf s → refd s.1 l → l < s.2.
Proof.
  intros Hwf (k & c & Hk & Hl). destruct (Hwf k c Hk) as [Hlt Hv].
  rewrite Forall_forall in Hv. specialize (Hv _ Hl). simpl in Hv. lia.
Qed.

Lemma fresh_refs_nil (s : heap * loc) : unshared s.1 → fresh_refs s s [].
Proof.
  intros Hu. split; [done|]. split; [by left|].
  intros l Hl. by apply elem_of_nil in Hl.
Qed.

(** Allocating one more value after a list of values. *)
Lemma fresh_refs_cons (s s1 s2 : heap * loc) v vs :
  alloc_wf s1 → s.2 ≤ s1.2 → need (λ l, l) v ≤ s1.2 →
  fresh_refs s s1 [v] → fresh_refs s1 s2 vs →
  fresh_refs s s2 (v :: vs).
Proof.
  intros Hwf Hle Hv (_ & Hr1 & Hv1) (Hu2 & Hr2 & Hv2).
  split; [done|]. split.
  - intros l Hl. destruct (Hr2 l Hl) as [Hl1|[Hge Hnin]].
    + destruct (Hr1 l Hl1) as [Hl0|[Hge Hne]]; [by left|].
      right. split; [done|]. intros Hin.
      apply elem_of_cons in Hin as [Heq|Hin].
      * apply Hne. rewrite Heq. left.
      * apply Hv2 in Hin. pose proof (alloc_wf_refd s1 l Hwf Hl1). lia.
    + right. split; [lia|]. intros Hin.
      apply elem_of_cons in Hin as [<-|Hin]; [|done]. simpl in Hv. lia.
  - intros l Hin. apply elem_of_cons in Hin as [<-|Hin].
    + apply Hv1. left.
    + apply Hv2 in Hin. lia.
Qed.

(** Storing the allocated values in a new cell. *)
Lemma fresh_refs_insert (s : heap * loc) (σ : heap) (next : loc) c :
  alloc_wf s → alloc_wf (σ, next) → s.2 ≤ next →
  Forall (λ v, need (λ l, l) v ≤ next) (cell_vals c) →
  fresh_refs s (σ, next) (cell_vals c) →
  fresh_refs s (<[next := c]> σ, S next) [VRef next].
Proof.
  intros Hwf0 Hwf Hle Hc (Hu & Hr & Hv). simpl in *.
  assert (Hold : ∀ k c' l, k ≠ next → σ !! k = Some c' →
                 VRef l ∈ cell_vals c' → VRef l ∉ cell_vals c).
  { intros k c' l Hk Hc' Hl Hin.
    destruct (Hr l) as [H0|[_ Hnin]]; [by exists k, c'| |done].
    pose proof (alloc_wf_refd s l Hwf0 H0). apply Hv in Hin. lia. }
  split; [|split].
  - intros k k' c1 c2 l Hk Hk' Hl Hl'. simpl in *.
    destruct (decide (next = k)) as [<-|Hne];
      destruct (decide (next = k')) as [<-|Hne']; [done| | |].
    + rewrite lookup_insert_eq in Hk. injection Hk as <-.
      rewrite lookup_insert_ne in Hk' by done.
      by destruct (Hold k' c2 l).
    + rewrite lookup_insert_eq in Hk'. injection Hk' as <-.
      rewrite lookup_insert_ne in Hk by done.
      by destruct (Hold k c1 l).
    + rewrite lookup_insert_ne in Hk, Hk' by done. by eapply Hu.
  - intros l (k & c' & Hk & Hl). simpl in Hk.
    assert (l < next) as Hlt.
    { destruct (decide (next = k)) as [<-|Hne].
      - rewrite lookup_insert_eq in Hk. injection Hk as <-.
        rewrite Forall_forall in Hc. specialize (Hc _ Hl). simpl in Hc. lia.
      - rewrite lookup_insert_ne in Hk by done.
        assert (refd (σ, next).1 l) as Hrl by (by exists k, c').
        apply (alloc_wf_refd (σ, next) l Hwf Hrl). }
    assert (VRef l ∉ [VRef next]) as Hnin.
    { intros Hin. apply list_elem_of_singleton in Hin. injection Hin. lia. }
    destruct (decide (next = k)) as [<-|Hne].
    + rewrite lookup_insert_eq in Hk. injection Hk as <-.
      right. split; [by apply Hv|done].
    + rewrite lookup_insert_ne in Hk by done.
      destruct (Hr l) as [H0|[Hge _]]; [by exists k, c'|by left|by right].
  - intros l Hin. apply list_elem_of_singleton in Hin. injection Hin as ->.
    done.
Qed.

Lemma alloc_list_tree es :
  Forall alloc_tree es →
  ∀ s, alloc_wf s → unshared s.1 →
       fresh_refs s (alloc_list alloc es s).2 (alloc_list alloc es s).1.
Proof.
  induction 1 as [|e es He Hes IH]; intros s Hs Hu; simpl.
  - by apply fresh_refs_nil.
  - pose proof (He s Hs Hu) as H1.
    destruct (alloc_all_ok e s Hs) as (Hwf1 & Hle1 & Hn1).
    destruct (alloc e s) as [v s1]. simpl in *.
    pose proof (IH s1 Hwf1 (proj1 H1)) as H2.
    destruct (alloc_list alloc es s1) as [vs s2]. simpl in *.
    by eapply fresh_refs_cons.
Qed.

Lemma alloc_fields_tree fs :
  Forall (λ kv, alloc_tree kv.2) fs →
  ∀ s, alloc_wf s → unshared s.1 →
       fresh_refs s (alloc_fields alloc fs s).2 (alloc_fields alloc fs s).1.*2.
Proof.
  induction 1 as [|[k e] fs He Hes IH]; intros s Hs Hu; simpl.
  - by apply fresh_refs_nil.
  - simpl in He. pose proof (He s Hs Hu) as H1.
    destruct (alloc_all_ok e s Hs) as (Hwf1 & Hle1 & Hn1).
    destruct (alloc e s) as [v s1]. simpl in *.
    pose proof (IH s1 Hwf1 (proj1 H1)) as H2.
    destruct (alloc_fields alloc fs s1) as [vs s2]. simpl in *.
    by eapply fresh_refs_cons.
Qed.

Lemma fresh_refs_prim (s : heap * loc) v :
  (∀ l, v ≠ VRef l) → unshared s.1 → fresh_refs s s [v].
Proof.
  intros Hv Hu. split; [done|]. split; [by left|].
  intros l Hl. apply list_elem_of_singleton in Hl. by destruct (Hv l).
Qed.

Lemma alloc_all_tree j : alloc_tree j.
Proof.
  induction j as [|b|z|t|es IH|fs IH] using json_nested_ind;
    intros s Hs Hu; try (by apply fresh_refs_prim).
  - pose proof (alloc_list_tree es IH s Hs Hu) as H.
    destruct (alloc_list_ok es (Forall_true _ _ alloc_all_ok) s Hs)
      as (H1 & H2 & H3).
    simpl. destruct (alloc_list alloc es s) as [vs [σ next]]. simpl in *.
    by apply (fresh_refs_insert s σ next (CArr vs)).
  - pose proof (alloc_fields_tree fs IH s Hs Hu) as H.
    destruct (alloc_fields_ok fs (Forall_true _ _ (λ kv, alloc_all_ok kv.2)) s Hs)
      as (H1 & H2 & H3).
    simpl. destruct (alloc_fields alloc fs s) as [vs [σ next]]. simpl in *.
    by apply (fresh_refs_insert s σ next (CObj vs)).
Qed.

(** The cells behind an entry of a [children] array. *)
Lemma child_of_inv σ p d :
  child_of σ p d →
  ∃ lp fs la es,
    p = VRef lp ∧ σ !! lp = Some (CObj fs) ∧ VRef la ∈ fs.*2 ∧
    σ !! la = Some (CArr es) ∧ d ∈ es.
Proof.
  intros (es & Hes & Hd). unfold children_of in Hes.
  open_bind Hes as ch Hch. destruct (truthy ch) eqn:Htch.
  2:{ injection Hes as <-. by apply elem_of_nil in Hd. }
  destruct (as_array σ ch) as [es'|] eqn:Ha; [|done]. injection Hes as ->.
  unfold as_array in Ha. destruct ch as [| |b|z|t|la]; try done.
  destruct (σ !! la) as [[fs'|es'']|] eqn:Hla; try done. injection Ha as ->.
  unfold get in Hch. destruct p as [| |b|z|t|lp]; try done.
  destruct (σ !! lp) as [[fs|es']|] eqn:Hlp; try done.
  injection Hch as Hch.
  destruct (assoc "children" fs) as [v|] eqn:Hv; [|done]. simpl in Hch.
  subst v. exists lp, fs, la, es. repeat split; try done.
  by eapply assoc_elem.
Qed.

Lemma unshared_tree σ root :
  unshared σ → (∀ l, refd σ l → VRef l ≠ root) →
  ((∀ l, root ≠ VRef l) → σ = ∅) →
  tree σ root.
Proof.
  intros Hu Hroot Hprim. split.
  - intros p p' l Hp Hp'.
    apply child_of_inv in Hp as (lp & fs & la & es & -> & Hlp & Hla & Hes & Hl).
    apply child_of_inv in Hp'
      as (lp' & fs' & la' & es' & -> & Hlp' & Hla' & Hes' & Hl').
    assert (la = la') as <- by (eapply (Hu la la'); eauto).
    f_equal. eapply (Hu lp lp'); eauto.
  - intros p Hp.
    apply child_of_inv in Hp as (lp & fs & la & es & -> & Hlp & Hla & Hes & Hl).
    destruct root as [| |b|z|t|lr];
      try (rewrite Hprim in Hlp by done; by rewrite lookup_empty in Hlp).
    apply (Hroot lr); [|done]. by exists la, (CArr es).
Qed.

(** The heap of a parsed value is a tree under its root. *)
Lemma load_tree j : tree (load j).2 (load j).1.
Proof.
  unfold load.
  assert (alloc_wf (∅, 0)) as Hwf.
  { intros l c Hl. simpl in Hl. by rewrite lookup_empty in Hl. }
  assert (unshared (∅ : heap)) as Hu.
  { intros k k' c c' l Hk. by rewrite lookup_empty in Hk. }
  destruct (alloc_all_tree j (∅, 0) Hwf Hu) as (Hu' & Hr & _).
  assert (Hprim : (∀ l, (alloc j (∅, 0)).1 ≠ VRef l) →
                  (alloc j (∅, 0)).2.1 = ∅).
  { intros Hne. destruct j as [|b|z|t|es|fs]; try done; simpl in *.
    - destruct (alloc_list alloc es (∅, 0)) as [vs [σ next]].
      simpl in *. by destruct (Hne next).
    - destruct (alloc_fields alloc fs (∅, 0)) as [vs [σ next]].
      simpl in *. by destruct (Hne next). }
  destruct (alloc j (∅, 0)) as [v [σ next]]. simpl in *.
  apply unshared_tree; [done| |].
  - intros l Hl. destruct (Hr l Hl) as [(k & c & Hk & _)|[_ Hnin]].
    + by rewrite lookup_empty in Hk.
    + intros Heq. apply Hnin. rewrite Heq. left.
  - done.
Qed.

(** ** C1: children marked as cycle points, amended *)

Lemma has_id_ref σ n : has_id σ n = true → ∃ l, n = VRef l.
Proof.
  intros H. apply has_id_true in H as (Hn & i & Hi & Hti).
  destruct n as [| |b|z|t|l]; try done; try (by injection Hi as <-).
  by exists l.
Qed.

Lemma walk_edge_child σ n c : walk_edge σ n c → child_of σ n c.
Proof. intros (_ & es & Hes & Hc & _). by exists es. Qed.

(** The last step of a path through [children] arrays. *)
Lemma reach_last σ c d :
  reach σ c d → d = c ∨ ∃ x, reach σ c x ∧ child_of σ x d.
Proof.
  induction 1 as [n|n es c m Hes Hc Hr IH]; [by left|]. right.
  destruct IH as [->|(x & Hx & Hd)].
  - exists n. split; [apply reach_refl|by exists es].
  - exists x. split; [|done]. by eapply reach_step.
Qed.

(** In a tree, nothing under a node that [walk] does not expand is
    expanded. *)
Lemma below_not_expanded σ root x y :
  tree σ root → reach σ x y →
  ¬ rtc (walk_edge σ) root x → ¬ rtc (walk_edge σ) root y.
Proof.
  intros [Hone Hroot]. induction 1 as [n|n es c m Hes Hc Hr IH]; [done|].
  intros Hn. apply IH. intros Hrc.
  apply rtc_inv_r in Hrc as [->|(p & Hp & Hpc)].
  - apply (Hroot n). by exists es.
  - destruct (has_id_ref σ c) as [l ->]; [by destruct Hpc as (_ & ? & _ & _ & ? & _)|].
    assert (p = n) as ->; [|done].
    apply (Hone p n l); [by apply walk_edge_child|by exists es].
Qed.

(** In a tree, no line names an entry below a cycle-marked entry. *)
Lemma below_cycle_child fuel σ root ls c d l :
  build_lines fuel σ root = Ret ls →
  tree σ root → cycle_marked σ c = true → c ≠ root →
  reach σ c d → d ≠ c → l ∈ ls → ¬ mentions d (line_tag l).
Proof.
  intros Hb Ht Hcy Hne Hcd Hdc Hl Hm.
  assert (Hc : ¬ rtc (walk_edge σ) root c).
  { intros Hrc. apply rtc_inv_r in Hrc as [->|(p & _ & Hpc)]; [done|].
    destruct Hpc as (_ & es & _ & _ & _ & Hplain). congruence. }
  pose proof (below_not_expanded σ root c d Ht Hcd Hc) as Hd.
  apply reach_last in Hcd as [->|(x & Hcx & Hxd)]; [done|].
  pose proof (below_not_expanded σ root c x Ht Hcx Hc) as Hx.
  apply build_origin_ok in Hb. rewrite Forall_forall in Hb.
  specialize (Hb l Hl). unfold origin_ok in Hb.
  destruct (line_tag l) as [|n|n e]; simpl in Hm; [done| |].
  - subst n. done.
  - destruct Hb as (Hn & Hne' & Heid). destruct Hm as [->| ->]; [done|].
    destruct (has_id_ref σ d Heid) as [k ->].
    destruct Ht as [Hone _]. by rewrite (Hone n x k Hne' Hxd) in Hn.
Qed.

(** C1, amended. For an entry [c] of a [children] array that carries a
    truthy id and a truthy cycle flag, the callback never takes the
    recursive call: all it does is push the edge line into [c], with
    the dashed connector.  In the returned string, which is the pushed
    lines joined by line breaks, that edge line stands for every
    expanded node that has [c] among its children; and unless [c] is
    the root itself, nothing is derived from the children of [c]: no
    line is an edge out of [c], and in a tree no line declares an entry
    below [c] or is an edge from or to one. *)
Theorem cycle_child_not_expanded fuel σ root s c :
  buildMermaid fuel σ root = Ret s →
  has_id σ c = true →
  cycle_marked σ c = true →
  (∀ rec rec' f p st, visit rec f σ p c st = visit rec' f σ p c st) ∧
  (∀ rec f p st st',
     visit rec f σ p c st = Ret st' →
     ∃ from ann to,
       id f σ p = Ret from ∧ id f σ c = Ret to ∧ qty f σ c = Ret ann ∧
       st' = push (TEdge p c)
               (from +:+ " " +:+ "-.->" +:+ ann +:+ " " +:+ to) st) ∧
  ∃ ls,
    build_lines fuel σ root = Ret ls ∧
    s = String.concat newline (line_text <$> ls) ∧
    Forall (line_ok σ) ls ∧
    (∀ p, expanded σ root p → child_of σ p c →
          ∃ f from ann to,
            id f σ p = Ret from ∧ id f σ c = Ret to ∧ qty f σ c = Ret ann ∧
            Line (TEdge p c)
              (from +:+ " " +:+ "-.->" +:+ ann +:+ " " +:+ to) ∈ ls) ∧
    (c ≠ root →
     (∀ d text, Line (TEdge c d) text ∉ ls) ∧
     (tree σ root →
      ∀ d l, reach σ c d → d ≠ c → l ∈ ls → ¬ mentions d (line_tag l))).
Proof.
  intros Hs Hid Hcy.
  pose proof Hid as Hid'.
  apply has_id_true in Hid' as (Hc & i & Hi & Hti).
  pose proof Hcy as Hcy0. unfold cycle_marked in Hcy0.
  destruct (get σ c "cycle") as [cy| |] eqn:Hcy'; try discriminate.
  assert (Hv : ∀ rec f p st,
             visit rec f σ p c st
             = l ← edge_line f σ p c; Ret (push (TEdge p c) l st)).
  { intros rec f p st. unfold visit. rewrite Hc, Hi. simpl. rewrite Hti.
    destruct (edge_line f σ p c) as [l| |]; simpl; try done.
    rewrite Hcy'. simpl. by rewrite Hcy0. }
  split; [|split].
  - intros rec rec' f p st. by rewrite !Hv.
  - intros rec f p st st' Hrun. rewrite Hv in Hrun.
    open_bind Hrun as l Hl. injection Hrun as <-.
    apply edge_line_inv in Hl
      as (cy' & ann & from & to & Hcy2 & Hann & Hfrom & Hto & ->).
    rewrite Hcy' in Hcy2. injection Hcy2 as <-.
    exists from, ann, to. repeat split; try done.
    unfold connector. by rewrite Hcy0.
  - destruct (buildMermaid_lines _ _ _ _ Hs) as (ls & Hb & Hjoin & Hok).
    exists ls. split; [done|]. split; [done|]. split; [done|]. split.
    + intros p Hp Hpc.
      destruct (build_complete _ _ _ _ _ Hb Hp) as [_ He].
      destruct (He c Hpc Hid) as [text Hin].
      rewrite Forall_forall in Hok. pose proof (Hok _ Hin) as Hl.
      unfold line_ok in Hl. simpl in Hl.
      destruct Hl as (_ & f & from & ann & to & Hfrom & Hto & Hann & ->).
      rewrite Hcy in Hin. by exists f, from, ann, to.
    + intros Hne. split.
      * intros d text Hin. apply build_source_ok in Hb.
        rewrite Forall_forall in Hb. specialize (Hb _ Hin).
        unfold source_ok in Hb; simpl in Hb.
        destruct Hb as [Hb|Hb]; [done|]. congruence.
      * intros Ht d l Hcd Hdc Hl. by eapply below_cycle_child.
Qed.

(** C1, amended, on the cycle example in the shape [walk] reads: the
    root in cell 4, its cycle-marked child in cell 2, and the entry
    below that child in cell 0. *)
Lemma cycle_child_not_expanded_witness :
  buildMermaid 2 cycle_heap (VRef 4) = Ret cycle_output ∧
  has_id cycle_heap (VRef 2) = true ∧
  cycle_marked cycle_heap (VRef 2) = true ∧
  expanded cycle_heap (VRef 4) (VRef 4) ∧
  child_of cycle_heap (VRef 4) (VRef 2) ∧
  tree cycle_heap (VRef 4) ∧
  reach cycle_heap (VRef 2) (VRef 0) ∧
  build_lines 2 cycle_heap (VRef 4) = Ret cycle_lines ∧
  cycle_output = String.concat newline (line_text <$> cycle_lines) ∧
  (∃ f from ann to,
     id f cycle_heap (VRef 4) = Ret from ∧
     id f cycle_heap (VRef 2) = Ret to ∧
     qty f cycle_heap (VRef 2) = Ret ann ∧
     Line (TEdge (VRef 4) (VRef 2))
       (from +:+ " " +:+ "-.->" +:+ ann +:+ " " +:+ to) ∈ cycle_lines) ∧
  (∀ d text, Line (TEdge (VRef 2) d) text ∉ cycle_lines) ∧
  (∀ l, l ∈ cycle_lines → ¬ mentions (VRef 0) (line_tag l)).
Proof.
  assert (Hs : buildMermaid 2 cycle_heap (VRef 4) = Ret cycle_output)
    by (vm_compute; reflexivity).
  assert (Hid : has_id cycle_heap (VRef 2) = true) by (vm_compute; reflexivity).
  assert (Hcy : cycle_marked cycle_heap (VRef 2) = true)
    by (vm_compute; reflexivity).
  assert (Hexp : expanded cycle_heap (VRef 4) (VRef 4)).
  { split; [vm_compute; reflexivity|apply rtc_refl]. }
  assert (Hch : child_of cycle_heap (VRef 4) (VRef 2)).
  { exists [VRef 2]. split; [vm_compute; reflexivity|left]. }
  assert (Ht : tree cycle_heap (VRef 4)) by apply (load_tree flat_cycle_example).
  assert (Hr : reach cycle_heap (VRef 2) (VRef 0)).
  { apply (reach_step _ _ [VRef 0] (VRef 0)); [vm_compute; reflexivity|left|].
    apply reach_refl. }
  destruct (cycle_child_not_expanded 2 cycle_heap (VRef 4) cycle_output
              (VRef 2) Hs Hid Hcy)
    as (_ & _ & ls & Hb & Hjoin & _ & Hedge & Hnot).
  assert (ls = cycle_lines) as ->.
  { vm_compute in Hb. injection Hb as <-. vm_compute; reflexivity. }
  destruct Hnot as [Hout Hbelow]; [discriminate|].
  repeat (split; [done|]). split; [by apply Hedge|]. split; [done|].
  intros l Hl. apply (Hbelow Ht (VRef 0) l Hr); [discriminate|done].
Defined.

(** ** C4: one declaration per id, amended *)





(** ** C10: edges are pushed on every traversal, in the returned string *)

(** The text of the edge between two nodes does not depend on the
    fuel. *)
Lemma edge_line_det σ f f' n c t t' :
  edge_line f σ n c = Ret t → edge_line f' σ n c = Ret t' → t = t'.
Proof.
  intros H H'.
  destruct (edge_line_mono σ f (f `max` f') n c) as [Hm|Hm]; [lia|congruence|].
  destruct (edge_line_mono σ f' (f `max` f') n c) as [Hm'|Hm']; [lia|congruence|].
  congruence.
Qed.

(** C10. Edge lines are not deduplicated.  The returned string is the
    pushed lines joined by line breaks.  For a node [c] with an id and
    no cycle flag, let [k] be the number of edge lines that lead into
    [c], plus one if [c] is the root: [c] is traversed [k] times, and
    the edge line from [c] to each child [d] with an id, the same text
    each time, is pushed on each of them, once per occurrence of [d]
    among the children of [c].  The id of [c] is nevertheless declared
    at most once, and exactly once as soon as [c] is traversed.  The
    same holds counted by id, where the node reached several times is
    several objects carrying one id [x]: if the expanded nodes with id
    [x] all have [m] children with id [y], the output holds [m] edge
    lines from [x] to [y] for each time such a node is entered, and at
    most one declaration of [x]. *)
Theorem edges_repeat_on_each_traversal fuel σ root s :
  buildMermaid fuel σ root = Ret s →
  ∃ ls,
    build_lines fuel σ root = Ret ls ∧
    s = String.concat newline (line_text <$> ls) ∧
    Forall (line_ok σ) ls ∧
    (∀ c d es,
       has_id σ c = true → cycle_marked σ c = false →
       children_of σ c = Ret es → has_id σ d = true →
       count_tag (TEdge c d) ls
       = (count_into c ls + (if decide (root = c) then 1 else 0))
         * count_occ d es ∧
       (∀ l l', l ∈ ls → l' ∈ ls →
                line_tag l = TEdge c d → line_tag l' = TEdge c d → l = l') ∧
       length (filter (λ i, i = id_val σ c) (decl_ids σ ls)) ≤ 1 ∧
       (0 < count_into c ls + (if decide (root = c) then 1 else 0) →
        length (filter (λ i, i = id_val σ c) (decl_ids σ ls)) = 1)) ∧
    (∀ x y m,
       (∀ n es,
          reach σ root n → n = root ∨ cycle_marked σ n = false →
          has_id σ n = true → id_val σ n = x →
          children_of σ n = Ret es → count_children σ y es = m) →
       count_lines (edge_between σ x y) ls = traversals σ root x ls * m ∧
       length (filter (λ i, i = x) (decl_ids σ ls)) ≤ 1).
Proof.
  intros Hs.
  destruct (buildMermaid_lines _ _ _ _ Hs) as (ls & Hb & Hjoin & Hok).
  exists ls. do 3 (split; [done|]). split.
  - intros c d es Hc Hcy Hes Hd.
    pose proof (build_decl_nodup _ _ _ _ Hb) as Hnd.
    apply (count_nodup (id_val σ c)) in Hnd as [Hle Hone].
    pose proof (build_edge_ok _ _ _ _ Hb) as Hedge.
    unfold build_lines in Hb. open_bind Hb as st Hst. injection Hb as <-.
    assert (decl_seen σ st) as [Hds _].
    { eapply walk_decl_seen; [|exact Hst]. split; [done|]. apply NoDup_nil_2. }
    destruct (walk_counts σ c d es Hc Hcy Hes Hd fuel root init st Hst)
      as (new & Hl & Hcount & Hseen).
    assert (count_tag (TEdge c d) (lines st) = count_tag (TEdge c d) new) as ->.
    { rewrite Hl. change (lines init) with [Line THeader "graph TD"].
      rewrite count_tag_app, count_tag_one. by rewrite decide_False. }
    assert (count_into c (lines st) = count_into c new) as ->.
    { rewrite Hl. change (lines init) with [Line THeader "graph TD"].
      by rewrite count_into_app. }
    split; [done|]. split.
    { intros [t1 x1] [t2 x2] H1 H2. simpl. intros -> ->. f_equal.
      rewrite Forall_forall in Hedge.
      destruct (Hedge _ H1) as [_ [f1 Hf1]].
      destruct (Hedge _ H2) as [_ [f2 Hf2]]. simpl in *.
      by eapply edge_line_det. }
    split; [done|].
    intros Hpos. apply Hone. rewrite Hds. by apply Hseen.
  - intros x y m Hsame. by apply (edges_repeat_by_id fuel).
Qed.

(** C10 on parsed JSON, where the part with id 2 occurs twice under the
    root: it is entered twice, its edge to the part with id 3 is printed
    twice, and it is declared once. *)
Lemma edges_repeat_on_each_traversal_witness :
  buildMermaid 3 repeated_heap (VRef 7) = Ret repeated_output ∧
  ∃ ls, build_lines 3 repeated_heap (VRef 7) = Ret ls ∧
        repeated_output = String.concat newline (line_text <$> ls) ∧
        traversals repeated_heap (VRef 7) (VNum 2) ls = 2 ∧
        count_lines (edge_between repeated_heap (VNum 2) (VNum 3)) ls = 2 ∧
        count_tag (TEdge (VRef 2) (VRef 0)) ls = 1 ∧
        count_tag (TEdge (VRef 5) (VRef 3)) ls = 1 ∧
        length (filter (λ i, i = VNum 2) (decl_ids repeated_heap ls)) = 1.
Proof.
  assert (Hs : buildMermaid 3 repeated_heap (VRef 7) = Ret repeated_output)
    by (vm_compute; reflexivity).
  split; [exact Hs|].
  assert (Hn : nodes_under 3 repeated_heap (VRef 7)
               = Some [VRef 7; VRef 2; VRef 0; VRef 5; VRef 3])
    by (vm_compute; reflexivity).
  pose proof (nodes_under_reach _ _ _ _ Hn) as Hr.
  destruct (edges_repeat_on_each_traversal 3 repeated_heap (VRef 7)
              repeated_output Hs)
    as (ls & Hb & Hjoin & _ & Hobj & Hid).
  exists ls. do 2 (split; [done|]).
  assert (Ht : traversals repeated_heap (VRef 7) (VNum 2) ls = 2).
  { vm_compute in Hb. injection Hb as <-. vm_compute; reflexivity. }
  split; [exact Ht|].
  destruct (Hid (VNum 2) (VNum 3) 1) as [Hc _].
  { intros n es Hn' _ _ Hx Hes. apply Hr in Hn'.
    repeat (apply elem_of_cons in Hn' as [->|Hn'];
            [try (by vm_compute in Hx);
             vm_compute in Hes; injection Hes as <-; by vm_compute|]).
    by apply elem_of_nil in Hn'. }
  split; [by rewrite Hc, Ht|].
  destruct (Hobj (VRef 2) (VRef 0) [VRef 0]) as (H1 & _ & _ & Hone);
    [by vm_compute..|].
  destruct (Hobj (VRef 5) (VRef 3) [VRef 3]) as (H2 & _ & _ & _);
    [by vm_compute..|].
  assert (count_into (VRef 2) ls = 1 ∧ count_into (VRef 5) ls = 1) as [Hi2 Hi5].
  { vm_compute in Hb. injection Hb as <-. split; vm_compute; reflexivity. }
  rewrite Hi2 in H1, Hone. rewrite Hi5 in H2.
  split; [exact H1|]. split; [exact H2|].
  apply Hone. simpl. lia.
Defined.

(** ** C2: termination, amended *)

(** C2, as stated, fails: the builder does not return a string on every
    input.  A name that is an object with a property [toString] cannot
    be converted to a string, and the conversion throws. *)
Lemma unprintable_name_returns_no_string :
  build_json 1 unprintable_name = Throw ∧
  ∀ fuel, returns (build_json fuel unprintable_name) = false.
Proof.
  split; [by vm_compute|]. intros [|fuel]; [done|].
  unfold build_json.
  assert (H : buildMermaid 1 (load unprintable_name).2 (load unprintable_name).1
              = Throw) by (by vm_compute).
  destruct (load unprintable_name) as [v σ] eqn:Hl. simpl in H.
  rewrite (buildMermaid_mono σ 1 (S fuel) v); [by rewrite H|lia|by rewrite H].
Qed.

(** The allocation of a value takes one cell per object and array. *)
Lemma alloc_next j : ∀ s : heap * loc, (alloc j s).2.2 = s.2 + cells j.
Proof.
  induction j as [|b|z|t|es IH|fs IH] using json_nested_ind;
    intros s; try (simpl; lia).
  - assert (H : ∀ s : heap * loc,
               (alloc_list alloc es s).2.2
               = s.2 + (fix go (es : list json) : nat :=
                          match es with
                          | [] => 0
                          | e :: es' => cells e + go es'
                          end) es).
    { clear s. induction IH as [|e es He Hes IHes]; intros s; simpl; [lia|].
      specialize (He s). destruct (alloc e s) as [v s1]. simpl in He.
      specialize (IHes s1). destruct (alloc_list alloc es s1) as [vs s2].
      simpl in *. lia. }
    specialize (H s). simpl.
    destruct (alloc_list alloc es s) as [vs [σ next]]. simpl in *. lia.
  - assert (H : ∀ s : heap * loc,
               (alloc_fields alloc fs s).2.2
               = s.2 + (fix go (fs : list (string * json)) : nat :=
                          match fs with
                          | [] => 0
                          | kv :: fs' => cells kv.2 + go fs'
                          end) fs).
    { clear s. induction IH as [|[k e] fs He Hes IHes]; intros s; simpl; [lia|].
      simpl in He. specialize (He s). destruct (alloc e s) as [v s1].
      simpl in He. specialize (IHes s1).
      destruct (alloc_fields alloc fs s1) as [vs s2]. simpl in *. lia. }
    specialize (H s). simpl.
    destruct (alloc_fields alloc fs s) as [vs [σ next]]. simpl in *. lia.
Qed.

Lemma load_need j : need (λ l, l) (load j).1 ≤ cells j.
Proof.
  unfold load. destruct (alloc_all_ok j (∅, 0)) as (_ & _ & Hn).
  { intros l c Hl. simpl in Hl. by rewrite lookup_empty in Hl. }
  pose proof (alloc_next j (∅, 0)) as Hc.
  destruct (alloc j (∅, 0)) as [v [σ next]]. simpl in *. lia.
Qed.

(** C2, amended. On every parsed JSON value the builder terminates,
    whether or not ids repeat along a path and whether or not any entry
    is cycle-marked: with a depth of nested calls above the number of
    objects and arrays of the value it returns a string or throws a
    [TypeError]. *)
Theorem build_terminates_on_parsed_input j fuel :
  cells j < fuel →
  (∃ s, build_json fuel j = Ret s) ∨ build_json fuel j = Throw.
Proof.
  intros Hf. destruct (load_ranked j) as [Hr _].
  pose proof (load_need j) as Hn. unfold build_json.
  destruct (load j) as [v σ]. simpl in *.
  assert (need (λ l, l) v < fuel) as Hlt by lia.
  pose proof (buildMermaid_terminates σ (λ l, l) v fuel Hr Hlt) as Ht.
  destruct (buildMermaid fuel σ v) as [s| |]; [left; by exists s|by right|done].
Qed.

(** C2, amended, on a parsed value in which the ids 1 and 2 repeat
    along a path and no entry is cycle-marked: seven objects and
    arrays. *)
Lemma build_terminates_on_parsed_input_witness :
  cells unrolled_cycle_example = 7 ∧
  cells unrolled_cycle_example < 8 ∧
  ((∃ s, build_json 8 unrolled_cycle_example = Ret s) ∨
   build_json 8 unrolled_cycle_example = Throw).
Proof.
  split; [reflexivity|].
  assert (H : cells unrolled_cycle_example < 8) by (vm_compute; lia).
  split; [exact H|].
  exact (build_terminates_on_parsed_input unrolled_cycle_example 8 H).
Defined.

(** A cycle between the parts 1 and 2 that no flag marks reaches the
    builder unrolled, and the builder returns on it: the ids are
    declared once, the edges repeat. *)
Example unrolled_cycle_output (k : nat) :
  build_json (4 + k) unrolled_cycle_example
  = Ret ("graph TD" +:+ newline +:+
         "P1[" +:+ dq +:+ "A" +:+ dq +:+ "]" +:+ newline +:+
         "P1 --> P2" +:+ newline +:+
         "P2[" +:+ dq +:+ "B" +:+ dq +:+ "]" +:+ newline +:+
         "P2 --> P1" +:+ newline +:+
         "P1 --> P2").
Proof. by vm_compute. Qed.

(** ** [escape] *)

Lemma unbracket_not_bracket a : bracket (unbracket a) = false.
Proof.
  unfold bracket, unbracket.
  destruct (Ascii.eqb a "[") eqn:Ha; [done|].
  destruct (Ascii.eqb a "]") eqn:Hb; [done|].
  by rewrite Ha, Hb.
Qed.

Lemma string_map_no_bracket s :
  Forall (λ a, bracket a = false) (chars (string_map unbracket s)).
Proof.
  induction s as [|a s IH]; simpl; [constructor|].
  constructor; [apply unbracket_not_bracket|done].
Qed.

Lemma unbracket_idemp a : unbracket (unbracket a) = unbracket a.
Proof.
  pose proof (unbracket_not_bracket a) as H. unfold bracket in H.
  apply orb_false_iff in H as [H1 H2].
  unfold unbracket at 1. by rewrite H1, H2.
Qed.

Lemma string_map_idemp s :
  string_map unbracket (string_map unbracket s) = string_map unbracket s.
Proof.
  induction s as [|a s IH]; simpl; [done|]. by rewrite unbracket_idemp, IH.
Qed.

Lemma string_map_length f s :
  String.length (string_map f s) = String.length s.
Proof. induction s as [|a s IH]; simpl; [done|]. by rewrite IH. Qed.

(** X1. Whatever [escape] is given, the string it returns holds no
    square bracket. *)
Theorem escape_has_no_bracket fuel σ v t :
  escape fuel σ v = Ret t →
  Forall (λ a, bracket a = false) (chars t).
Proof.
  unfold escape. intros H. open_bind H as t0 Ht0. injection H as <-.
  rewrite escape_str_map. apply string_map_no_bracket.
Qed.

(** X1 on a name with brackets and a double quote. *)
Lemma escape_has_no_bracket_witness :
  escape O ∅ (VStr ("a" +:+ dq +:+ "b[c]")) = Ret ("a" +:+ dq +:+ "b(c)") ∧
  Forall (λ a, bracket a = false) (chars ("a" +:+ dq +:+ "b(c)")).
Proof.
  split; [vm_compute; reflexivity|].
  apply (escape_has_no_bracket O ∅ (VStr ("a" +:+ dq +:+ "b[c]"))).
  vm_compute; reflexivity.
Defined.

(** X2. On a string [escape] never throws, keeps the length, and is
    idempotent: escaping an escaped label changes nothing. *)
Theorem escape_idempotent fuel σ s :
  ∃ t, escape fuel σ (VStr s) = Ret t ∧
       String.length t = String.length s ∧
       escape fuel σ (VStr t) = Ret t.
Proof.
  exists (string_map unbracket s). rewrite !escape_VStr.
  split; [done|]. split; [apply string_map_length|].
  by rewrite string_map_idemp.
Qed.

(** ** The header *)

Lemma append_empty_r (s : string) : s +:+ "" = s.
Proof. induction s as [|a s IH]; [done|]. by rewrite append_cons, IH. Qed.

(** X3. Every output starts with the header: it is [graph TD] alone, or
    [graph TD] followed by a line break and the lines of the walk. *)
Theorem output_starts_with_header fuel σ root s :
  buildMermaid fuel σ root = Ret s →
  s = "graph TD" ∨ ∃ rest, s = "graph TD" +:+ newline +:+ rest.
Proof.
  unfold buildMermaid. intros H. open_bind H as ls Hls. injection H as <-.
  apply build_lines_header in Hls as [rest ->].
  destruct rest as [|l rest]; [by left|right].
  by exists (join_lines (line_text <$> l :: rest)).
Qed.

(** X3 on the two-node example. *)
Lemma output_starts_with_header_witness :
  buildMermaid 2 flat_heap (VRef 3) = Ret four_lines ∧
  (four_lines = "graph TD" ∨ ∃ rest, four_lines = "graph TD" +:+ newline +:+ rest).
Proof.
  split; [vm_compute; reflexivity|].
  apply (output_starts_with_header 2 flat_heap (VRef 3)).
  vm_compute; reflexivity.
Defined.

(** ** Diagram identifiers *)

Lemma id_inv fuel σ n p :
  id fuel σ n = Ret p →
  ∃ i s, get σ n "id" = Ret i ∧ to_string fuel σ i = Ret s ∧ p = "P" +:+ s.
Proof.
  unfold id. intros H. open_bind H as i Hi. open_bind H as s Hs.
  injection H as <-. eauto.
Qed.

(** X4. Diagram identifiers are injective on ids of one kind: two nodes
    whose ids are both numbers, or both strings, get the same identifier
    only if their ids are equal. *)
Theorem id_injective_on_scalars fuel fuel' σ n m p :
  id fuel σ n = Ret p →
  id fuel' σ m = Ret p →
  (∀ a b, get σ n "id" = Ret (VNum a) → get σ m "id" = Ret (VNum b) → a = b) ∧
  (∀ a b, get σ n "id" = Ret (VStr a) → get σ m "id" = Ret (VStr b) → a = b).
Proof.
  intros Hn Hm.
  apply id_inv in Hn as (i & s & Hi & Hs & ->).
  apply id_inv in Hm as (j & t & Hj & Ht & Heq).
  rewrite !append_cons, !append_nil in Heq. injection Heq as ->.
  split; intros a b Ha Hb; rewrite Ha in Hi; rewrite Hb in Hj;
    injection Hi as <-; injection Hj as <-; simpl in Hs, Ht.
  - injection Hs as Hs. injection Ht as Ht. rewrite <-Ht in Hs.
    by apply (inj pretty) in Hs.
  - injection Hs as Hs. injection Ht as Ht. congruence.
Qed.

(** X4 on the two nodes of the shared-id example that carry the id 4. *)
Lemma id_injective_on_scalars_witness :
  id O shared_id_heap (VRef 0) = Ret "P4" ∧
  id O shared_id_heap (VRef 3) = Ret "P4" ∧
  (∀ a b, get shared_id_heap (VRef 0) "id" = Ret (VNum a) →
          get shared_id_heap (VRef 3) "id" = Ret (VNum b) → a = b).
Proof.
  split; [vm_compute; reflexivity|]. split; [vm_compute; reflexivity|].
  apply (id_injective_on_scalars O O shared_id_heap (VRef 0) (VRef 3) "P4");
    vm_compute; reflexivity.
Defined.

(** Across kinds the identifiers collide: the number [1] and the string
    [1] are different members of the seen set and the same diagram
    node. *)
Example id_collision :
  build_json 2
    (JObj [("id", JNum 1); ("name", JStr "A");
           ("children", JArr [JObj [("id", JStr "1"); ("name", JStr "B")]])])
  = Ret ("graph TD" +:+ newline +:+
         "P1[" +:+ dq +:+ "A" +:+ dq +:+ "]" +:+ newline +:+
         "P1 --> P1" +:+ newline +:+
         "P1[" +:+ dq +:+ "B" +:+ dq +:+ "]").
Proof. by vm_compute. Qed.

(** ** Inputs on which the builder does not throw *)

Lemma bind_no_throw {A B} (m : outcome A) (f : A → outcome B) :
  no_throw m → (∀ a, m = Ret a → no_throw (f a)) → no_throw (m ≫= f).
Proof.
  unfold no_throw. destruct m as [a| |]; simpl; [|done|done].
  intros _ H. by apply H.
Qed.

Lemma get_no_throw σ n k : nullish n = false → no_throw (get σ n k).
Proof.
  unfold no_throw, get. destruct n as [| |b|z|s|l]; try done.
  by destruct (σ !! l) as [[fs|es]|].
Qed.

Lemma truthy_not_nullish n : truthy n = true → nullish n = false.
Proof. by destruct n. Qed.

Lemma get_object σ n k v :
  get σ n k = Ret v → v ≠ VUndef →
  ∃ l fs, n = VRef l ∧ σ !! l = Some (CObj fs) ∧ assoc k fs = Some v.
Proof.
  unfold get. destruct n as [| |b|z|s|l]; try done;
    try (intros [= <-]; done).
  destruct (σ !! l) as [[fs|es]|] eqn:Hl; try (intros [= <-]; done).
  intros [= <-] Hv. exists l, fs. repeat split; try done.
  by destruct (assoc k fs).
Qed.

Lemma join_no_throw (ts : val → outcome string) sep es :
  (∀ e, no_throw (ts e)) → no_throw (join ts sep es).
Proof.
  intros H. induction es as [|e es IH]; [done|]. simpl.
  apply bind_no_throw.
  - unfold join_elem. by destruct (nullish e).
  - intros s _. destruct es as [|e' es]; [done|].
    by apply bind_no_throw.
Qed.

Section safe_heap.
Context (σ : heap).
Hypothesis σ_safe : safe_heap σ.

Lemma safe_object l fs :
  σ !! l = Some (CObj fs) →
  (∀ ch, assoc "children" fs = Some ch → truthy ch = true →
         is_Some (as_array σ ch)) ∧
  (∀ sv es, assoc "substitutes" fs = Some sv → as_array σ sv = Some es →
            Forall (λ e, nullish e = false) es) ∧
  assoc "toString" fs = None.
Proof.
  intros Hl. specialize (σ_safe l _ Hl). simpl in σ_safe.
  apply andb_true_iff in σ_safe as [H12 H3].
  apply andb_true_iff in H12 as [H1 H2].
  split; [|split].
  - intros ch Hch Ht. rewrite Hch, Ht in H1. simpl in H1.
    by apply bool_decide_eq_true in H1.
  - intros sv es Hsv Hes. rewrite Hsv, Hes in H2.
    apply Forall_forall. intros e He.
    rewrite forallb_forall in H2. apply list_elem_of_In in He.
    specialize (H2 e He). by apply negb_true_iff in H2.
  - by apply bool_decide_eq_true in H3.
Qed.

Lemma to_string_with_no_throw (arr : list val → outcome string) v :
  (∀ es, no_throw (arr es)) → no_throw (to_string_with arr σ v).
Proof.
  intros H. destruct v as [| |[]|z|s|l]; try done. simpl.
  destruct (σ !! l) as [[fs|es]|] eqn:Hl; [|apply H|done].
  destruct (safe_object l fs Hl) as (_ & _ & ->). done.
Qed.

Lemma array_to_string_no_throw fuel : ∀ es,
  no_throw (array_to_string fuel σ es).
Proof.
  induction fuel as [|fuel IH]; intros es; [done|]. simpl.
  apply join_no_throw. intros e. by apply to_string_with_no_throw.
Qed.

Lemma to_string_no_throw fuel v : no_throw (to_string fuel σ v).
Proof.
  apply to_string_with_no_throw. apply array_to_string_no_throw.
Qed.

Lemma id_no_throw fuel n : nullish n = false → no_throw (id fuel σ n).
Proof.
  intros Hn. unfold id. apply bind_no_throw; [by apply get_no_throw|].
  intros i _. apply bind_no_throw; [apply to_string_no_throw|done].
Qed.

Lemma subst_entry_no_throw s :
  nullish s = false → no_throw (subst_entry σ s).
Proof.
  intros Hs. unfold subst_entry.
  apply bind_no_throw; [by apply get_no_throw|]. intros a _.
  destruct (truthy a); [done|].
  apply bind_no_throw; [by apply get_no_throw|]. intros b _.
  destruct (truthy b); [done|]. by apply get_no_throw.
Qed.

Lemma map_entries_no_throw (f : val → outcome val) es :
  Forall (λ e, no_throw (f e)) es → no_throw (map_entries f es).
Proof.
  induction 1 as [|e es He Hes IH]; [done|]. simpl.
  apply bind_no_throw; [done|]. intros v _.
  by apply bind_no_throw.
Qed.

Lemma nodeLabel_no_throw fuel n :
  nullish n = false → no_throw (nodeLabel fuel σ n).
Proof.
  intros Hn. unfold nodeLabel.
  apply bind_no_throw; [by apply get_no_throw|]. intros nm _.
  apply bind_no_throw; [by apply get_no_throw|]. intros iv _.
  apply bind_no_throw.
  { destruct (truthy iv); [|done].
    apply bind_no_throw; [apply to_string_no_throw|done]. }
  intros ipn _.
  apply bind_no_throw; [by apply get_no_throw|]. intros cv _.
  apply bind_no_throw; [by apply get_no_throw|]. intros sv Hsv.
  apply bind_no_throw.
  { destruct (as_array σ sv) as [[|e es]|] eqn:Ha; try done.
    assert (sv ≠ VUndef) as Hne by (by intros ->).
    destruct (get_object _ _ _ _ Hsv Hne) as (l & fs & -> & Hl & Hfs).
    destruct (safe_object l fs Hl) as (_ & Hsubs & _).
    specialize (Hsubs sv _ Hfs Ha).
    apply bind_no_throw.
    - apply map_entries_no_throw.
      eapply Forall_impl; [exact Hsubs|]. intros s Hs.
      by apply subst_entry_no_throw.
    - intros vs _. apply bind_no_throw; [|done].
      apply join_no_throw. intros v. apply to_string_no_throw. }
  intros subs _. apply bind_no_throw; [apply to_string_no_throw|done].
Qed.

Lemma declare_no_throw fuel n st :
  nullish n = false → no_throw (declare fuel σ n st).
Proof.
  intros Hn. unfold declare.
  apply bind_no_throw; [by apply id_no_throw|]. intros p _.
  apply bind_no_throw; [by apply nodeLabel_no_throw|]. intros lbl _.
  apply bind_no_throw.
  { unfold escape. apply bind_no_throw; [apply to_string_no_throw|done]. }
  intros e _. apply bind_no_throw; [by apply get_no_throw|done].
Qed.

Lemma children_no_throw n : nullish n = false → no_throw (children_of σ n).
Proof.
  intros Hn. unfold children_of.
  apply bind_no_throw; [by apply get_no_throw|]. intros ch Hch.
  destruct (truthy ch) eqn:Ht; [|done].
  assert (ch ≠ VUndef) as Hne by (by intros ->).
  destruct (get_object _ _ _ _ Hch Hne) as (l & fs & -> & Hl & Hfs).
  destruct (safe_object l fs Hl) as (Hc & _ & _).
  destruct (Hc ch Hfs Ht) as [es ->]. done.
Qed.

Lemma edge_line_no_throw fuel n c :
  nullish n = false → nullish c = false → no_throw (edge_line fuel σ n c).
Proof.
  intros Hn Hc. unfold edge_line.
  apply bind_no_throw.
  { unfold qty. apply bind_no_throw; [by apply get_no_throw|].
    intros q _. destruct (nullish q); [done|].
    apply bind_no_throw; [apply to_string_no_throw|done]. }
  intros ann _.
  apply bind_no_throw; [by apply get_no_throw|]. intros cyc _.
  apply bind_no_throw; [by apply id_no_throw|]. intros p _.
  apply bind_no_throw; [by apply id_no_throw|done].
Qed.

Lemma for_each_no_throw (f : val → state → outcome state) es :
  (∀ e s, no_throw (f e s)) → ∀ st, no_throw (for_each f es st).
Proof.
  intros H. induction es as [|e es IH]; intros st; [done|]. simpl.
  apply bind_no_throw; [apply H|]. intros s _. apply IH.
Qed.

Lemma walk_no_throw fuel : ∀ n st, no_throw (walk fuel σ n st).
Proof.
  induction fuel as [|fuel IH]; intros n st; [done|].
  rewrite walk_S. destruct (truthy n) eqn:Hn; [|done].
  apply truthy_not_nullish in Hn.
  apply bind_no_throw; [by apply get_no_throw|]. intros i _.
  destruct (truthy i); [|done].
  apply bind_no_throw.
  { destruct (seen_has i st); [done|]. by apply declare_no_throw. }
  intros st1 _.
  apply bind_no_throw; [by apply children_no_throw|]. intros es _.
  apply for_each_no_throw. intros c s. unfold visit.
  destruct (truthy c) eqn:Hc; [|done]. apply truthy_not_nullish in Hc.
  apply bind_no_throw; [by apply get_no_throw|]. intros ci _.
  destruct (truthy ci); [|done].
  apply bind_no_throw; [by apply edge_line_no_throw|]. intros l _.
  apply bind_no_throw; [by apply get_no_throw|]. intros cy _.
  destruct (truthy cy); [done|]. apply IH.
Qed.
End safe_heap.

(** X5. On a heap where, in every object, a truthy [children]
    property is an array, a [substitutes] property that is an array
    holds neither [null] nor [undefined], and there is no own property
    [toString], the builder never throws, whatever else is missing or
    misplaced; and if the heap is moreover acyclic, some rank
    decreasing along every reference stored in a cell, the builder
    returns a string for every fuel above the rank of the root plus
    one. *)
Theorem build_returns_on_safe_input σ :
  safe_heap σ →
  (∀ fuel root, buildMermaid fuel σ root ≠ Throw) ∧
  (∀ rank root fuel,
     ranked σ rank → need rank root < fuel →
     ∃ s, buildMermaid fuel σ root = Ret s).
Proof.
  intros Hsafe.
  assert (Hnt : ∀ fuel root, buildMermaid fuel σ root ≠ Throw).
  { intros fuel root. unfold buildMermaid, build_lines.
    apply bind_no_throw; [|done]. apply bind_no_throw; [|done].
    by apply walk_no_throw. }
  split; [done|]. intros rank root fuel Hr Hf.
  pose proof (buildMermaid_terminates σ rank root fuel Hr Hf) as Ht.
  specialize (Hnt fuel root).
  destruct (buildMermaid fuel σ root) as [s| |]; [by exists s|done|done].
Qed.

(** X5 on a malformed tree: a [null] entry, a primitive entry, entries
    without id or with a falsy id, odd substitutes and a nested array as
    name are all tolerated. *)
Lemma build_returns_on_safe_input_witness :
  safe_heap malformed_heap ∧
  buildMermaid 20 malformed_heap malformed_root
  = Ret ("graph TD" +:+ newline +:+
         "P1[" +:+ dq +:+ "(unnamed)" +:+ dq +:+ "]" +:+ newline +:+
         "P1 -->|false| Pb" +:+ newline +:+
         "Pb[" +:+ dq +:+ "1,,z" +:+ newline +:+ "Subs: , , I" +:+ dq +:+ "]"
         +:+ newline +:+
         "P1 --> P3" +:+ newline +:+
         "P3[" +:+ dq +:+ "(unnamed)" +:+ dq +:+ "]") ∧
  (∀ fuel root, buildMermaid fuel malformed_heap root ≠ Throw).
Proof.
  assert (Hs : safe_heap malformed_heap).
  { apply (bool_decide_eq_true_1 _). vm_compute; reflexivity. }
  split; [exact Hs|]. split; [vm_compute; reflexivity|].
  apply (build_returns_on_safe_input malformed_heap Hs).
Defined.

(** ** Declarations and the edges that use them *)

Lemma snoc_split {A} (ls l1 l2 : list A) (x y : A) :
  ls ++ [x] = l1 ++ y :: l2 →
  (l2 = [] ∧ ls = l1 ∧ x = y) ∨
  (∃ l2', l2 = l2' ++ [x] ∧ ls = l1 ++ y :: l2').
Proof.
  destruct l2 as [|z l2 _] using rev_ind; intros H.
  - left. apply app_inj_tail in H as [-> ->]. done.
  - right. change (l1 ++ y :: l2 ++ [z]) with (l1 ++ (y :: l2) ++ [z]) in H.
    rewrite app_assoc in H. apply app_inj_tail in H as [-> ->].
    by exists l2.
Qed.

Lemma sources_declared_decl σ n text st :
  sources_declared σ st → seen_has (id_val σ n) st = false →
  sources_declared σ (seen_add (id_val σ n) (push (TDecl n) text st)).
Proof.
  intros [Hds Hord] Hs. unfold seen_add.
  change (seen_has (id_val σ n) (push (TDecl n) text st))
    with (seen_has (id_val σ n) st).
  rewrite Hs. split; simpl.
  - by rewrite decl_ids_app, Hds.
  - intros l1 m c t l2 Heq.
    apply snoc_split in Heq as [(_ & _ & [=])|(l2' & -> & Heq)].
    by apply (Hord l1 m c t l2').
Qed.

Lemma sources_declared_edge σ n c text st :
  sources_declared σ st → id_val σ n ∈ seen st →
  sources_declared σ (push (TEdge n c) text st).
Proof.
  intros [Hds Hord] Hn. split; simpl.
  - rewrite decl_ids_app, Hds. simpl. by rewrite app_nil_r.
  - intros l1 m c' t l2 Heq.
    apply snoc_split in Heq as [(_ & <- & [= <- <- <-])|(l2' & -> & Heq)].
    + by rewrite Hds.
    + by apply (Hord l1 m c' t l2').
Qed.

Lemma walk_sources_declared σ fuel : ∀ n st st',
  walk fuel σ n st = Ret st' →
  sources_declared σ st → sources_declared σ st'.
Proof.
  induction fuel as [|fuel IH]; intros n st st' Hrun Hst; [done|].
  destruct (has_id σ n) eqn:Hn.
  2:{ rewrite walk_no_id in Hrun by done. by injection Hrun as <-. }
  apply has_id_true in Hn as (Hn & i & Hi & Hti).
  assert (Hiv : id_val σ n = i) by (unfold id_val; by rewrite Hi).
  rewrite walk_S, Hn, Hi, bind_ret_l, Hti in Hrun.
  open_bind Hrun as st1 Hst1. open_bind Hrun as es Hes.
  assert (H1 : sources_declared σ st1 ∧ i ∈ seen st1).
  { destruct (seen_has i st) eqn:Hs.
    - injection Hst1 as <-. split; [done|]. by apply seen_has_true.
    - apply declare_inv in Hst1 as (j & text & Hj & ->).
      rewrite Hi in Hj. injection Hj as <-. rewrite <-Hiv in Hs |- *.
      split; [by apply sources_declared_decl|].
      unfold seen_add.
      change (seen_has (id_val σ n) (push (TDecl n) text st))
        with (seen_has (id_val σ n) st).
      rewrite Hs. simpl. apply elem_of_app. right.
      by apply list_elem_of_singleton. }
  destruct H1 as [H1 Hi1]. clear Hst1.
  revert st1 H1 Hi1 Hrun. clear Hes.
  induction es as [|e es IHes]; intros s Hs His Hrun; simpl in Hrun.
  - by injection Hrun as <-.
  - open_bind Hrun as s1 Hs1.
    pose proof (visit_seen_mono _ _ _ _ _ _ Hs1) as Hmono.
    apply (IHes s1); [|by apply Hmono|done].
    unfold visit in Hs1.
    destruct (truthy e); [|by injection Hs1 as <-].
    open_bind Hs1 as ci Hci.
    destruct (truthy ci); [|by injection Hs1 as <-].
    open_bind Hs1 as l Hl. open_bind Hs1 as cy Hcy.
    assert (sources_declared σ (push (TEdge n e) l s)) as Hp.
    { apply sources_declared_edge; [done|]. by rewrite Hiv. }
    destruct (truthy cy); [by injection Hs1 as <-|].
    by eapply IH.
Qed.

(** X6. Every edge line stands after the declaration of its source:
    the lines before it hold a declaration for the id of the node the
    edge leaves. *)
Theorem edge_source_declared_before fuel σ root l1 n c text l2 :
  build_lines fuel σ root = Ret (l1 ++ Line (TEdge n c) text :: l2) →
  id_val σ n ∈ decl_ids σ l1.
Proof.
  unfold build_lines. intros H. open_bind H as st Hst.
  injection H as Hl.
  assert (sources_declared σ st) as [_ Hord].
  { eapply walk_sources_declared; [exact Hst|]. split; [done|].
    intros l1' m c' t l2' Heq. simpl in Heq.
    destruct l1' as [|x l1']; [discriminate|].
    injection Heq as _ Heq. by destruct l1'. }
  by eapply Hord.
Qed.

(** X6 on the shared-node example: the second edge out of the node in
    cell 2, with the five lines before it. *)
Lemma edge_source_declared_before_witness :
  build_lines 3 diamond_heap (VRef 4)
  = Ret (firstn 7 diamond_lines
         ++ Line (TEdge (VRef 2) (VRef 0)) "P2 --> P3" :: []) ∧
  id_val diamond_heap (VRef 2) ∈ decl_ids diamond_heap (firstn 7 diamond_lines).
Proof.
  split; [vm_compute; reflexivity|].
  apply (edge_source_declared_before 3 diamond_heap (VRef 4)
           (firstn 7 diamond_lines) (VRef 2) (VRef 0) "P2 --> P3" []).
  vm_compute; reflexivity.
Defined.

Lemma walk_targets_declared σ fuel : ∀ n st st',
  walk fuel σ n st = Ret st' →
  (has_id σ n = true → id_val σ n ∈ seen st') ∧
  ∃ new, lines st' = lines st ++ new ∧
         ∀ p c text, Line (TEdge p c) text ∈ new →
                     cycle_marked σ c = false → id_val σ c ∈ seen st'.
Proof.
  induction fuel as [|fuel IH]; intros n st st' Hrun; [done|].
  destruct (has_id σ n) eqn:Hn.
  2:{ rewrite walk_no_id in Hrun by done. injection Hrun as <-.
      split; [done|]. exists []. rewrite app_nil_r. split; [done|].
      intros p c t Hin. by apply elem_of_nil in Hin. }
  apply has_id_true in Hn as (Hn & i & Hi & Hti).
  assert (Hiv : id_val σ n = i) by (unfold id_val; by rewrite Hi).
  rewrite walk_S, Hn, Hi, bind_ret_l, Hti in Hrun.
  open_bind Hrun as st1 Hst1. open_bind Hrun as es Hes.
  assert (H1 : i ∈ seen st1 ∧
               ∃ dl, lines st1 = lines st ++ dl ∧
                     ∀ p c text, Line (TEdge p c) text ∉ dl).
  { destruct (seen_has i st) eqn:Hs.
    - injection Hst1 as <-. split; [by apply seen_has_true|].
      exists []. rewrite app_nil_r. split; [done|].
      intros p c t Hin. by apply elem_of_nil in Hin.
    - apply declare_inv in Hst1 as (j & text & Hj & ->).
      rewrite Hi in Hj. injection Hj as <-. split.
      + unfold seen_add.
        change (seen_has i (push (TDecl n) text st)) with (seen_has i st).
        rewrite Hs. simpl. apply elem_of_app. right.
        by apply list_elem_of_singleton.
      + exists [Line (TDecl n) text]. split; [done|].
        intros p c t Hin. by apply list_elem_of_singleton in Hin. }
  destruct H1 as (Hi1 & dl & Hdl & Hdl').
  assert (Hloop : ∀ es' s s',
    for_each (visit (walk fuel σ) fuel σ n) es' s = Ret s' →
    ∃ new, lines s' = lines s ++ new ∧
           ∀ p c text, Line (TEdge p c) text ∈ new →
                       cycle_marked σ c = false → id_val σ c ∈ seen s').
  { induction es' as [|e es' IHes]; intros s s' Hfe; simpl in Hfe.
    - injection Hfe as <-. exists []. rewrite app_nil_r. split; [done|].
      intros p c t Hin. by apply elem_of_nil in Hin.
    - open_bind Hfe as s1 Hs1.
      pose proof (for_each_seen_mono _ _ _ _ _ _ Hfe) as Hmono.
      destruct (IHes s1 s' Hfe) as (newr & Hlr & Hr).
      assert (He : ∃ newe, lines s1 = lines s ++ newe ∧
                 ∀ p c text, Line (TEdge p c) text ∈ newe →
                   cycle_marked σ c = false → id_val σ c ∈ seen s1).
      { destruct (has_id σ e) eqn:Hide.
        2:{ rewrite visit_no_id in Hs1 by done. injection Hs1 as <-.
            exists []. rewrite app_nil_r. split; [done|].
            intros p c t Hin. by apply elem_of_nil in Hin. }
        pose proof Hide as Hide'.
        apply has_id_true in Hide as (He & ei & Hei & Htei).
        unfold visit in Hs1. rewrite He, Hei, bind_ret_l, Htei in Hs1.
        open_bind Hs1 as l Hl. open_bind Hs1 as cy Hcy.
        assert (Hcm : cycle_marked σ e = truthy cy)
          by (unfold cycle_marked; by rewrite Hcy).
        destruct (truthy cy) eqn:Htcy.
        - injection Hs1 as <-. exists [Line (TEdge n e) l].
          split; [done|]. intros p c t Hin Hc.
          apply list_elem_of_singleton in Hin. injection Hin as -> -> ->.
          congruence.
        - apply IH in Hs1 as (Hseen & neww & Hlw & Hw). simpl in Hlw.
          exists ([Line (TEdge n e) l] ++ neww).
          split; [by rewrite Hlw, <-app_assoc|].
          intros p c t Hin Hc. apply elem_of_app in Hin as [Hin|Hin].
          + apply list_elem_of_singleton in Hin. injection Hin as -> -> ->.
            by apply Hseen.
          + by eapply Hw. }
      destruct He as (newe & Hle & He).
      exists (newe ++ newr). split; [by rewrite Hlr, Hle, <-app_assoc|].
      intros p c t Hin Hc. apply elem_of_app in Hin as [Hin|Hin].
      + apply Hmono. by eapply He.
      + by eapply Hr. }
  destruct (Hloop es st1 st' Hrun) as (new & Hl & Hnew).
  split.
  - intros _. rewrite Hiv. apply for_each_seen_mono in Hrun. by apply Hrun.
  - exists (dl ++ new). split; [by rewrite Hl, Hdl, <-app_assoc|].
    intros p c t Hin Hc. apply elem_of_app in Hin as [Hin|Hin].
    + by apply Hdl' in Hin.
    + by eapply Hnew.
Qed.

(** X7. The target of every solid edge is declared: if the entry an
    edge line leads to is not cycle-marked, the output holds a
    declaration of its id. *)
Theorem solid_target_declared fuel σ root ls n c text :
  build_lines fuel σ root = Ret ls →
  Line (TEdge n c) text ∈ ls →
  cycle_marked σ c = false →
  id_val σ c ∈ decl_ids σ ls.
Proof.
  unfold build_lines. intros H Hin Hc. open_bind H as st Hst.
  injection H as <-.
  assert (decl_seen σ st) as [-> _].
  { eapply walk_decl_seen; [|exact Hst]. split; [done|]. apply NoDup_nil_2. }
  destruct (walk_targets_declared _ _ _ _ _ Hst) as (_ & new & Hl & Hnew).
  rewrite Hl in Hin. apply elem_of_app in Hin as [Hin|Hin].
  - simpl in Hin. by apply list_elem_of_singleton in Hin.
  - by eapply Hnew.
Qed.

(** X7 on the two-node example. *)
Lemma solid_target_declared_witness :
  build_lines 2 flat_heap (VRef 3)
  = Ret [Line THeader "graph TD";
         Line (TDecl (VRef 3)) ("P1[" +:+ dq +:+ "A" +:+ dq +:+ "]");
         Line (TEdge (VRef 3) (VRef 1)) "P1 -->|2| P2";
         Line (TDecl (VRef 1)) ("P2[" +:+ dq +:+ "B" +:+ dq +:+ "]")] ∧
  cycle_marked flat_heap (VRef 1) = false ∧
  id_val flat_heap (VRef 1)
  ∈ decl_ids flat_heap
      [Line THeader "graph TD";
       Line (TDecl (VRef 3)) ("P1[" +:+ dq +:+ "A" +:+ dq +:+ "]");
       Line (TEdge (VRef 3) (VRef 1)) "P1 -->|2| P2";
       Line (TDecl (VRef 1)) ("P2[" +:+ dq +:+ "B" +:+ dq +:+ "]")].
Proof.
  split; [vm_compute; reflexivity|].
  split; [vm_compute; reflexivity|].
  apply (solid_target_declared 2 flat_heap (VRef 3) _ (VRef 3) (VRef 1)
           "P1 -->|2| P2").
  - vm_compute; reflexivity.
  - apply (bool_decide_eq_true_1 _). vm_compute; reflexivity.
  - vm_compute; reflexivity.
Defined.

(** ** Where declarations come from *)

(** X8. Only nodes are declared: every declaration line belongs to an
    entry under the root that carries a truthy id, and to no
    cycle-marked entry other than the root itself. *)
Theorem declared_nodes_are_expanded_nodes fuel σ root ls n text :
  build_lines fuel σ root = Ret ls →
  Line (TDecl n) text ∈ ls →
  reach σ root n ∧ has_id σ n = true ∧
  (cycle_marked σ n = true → n = root).
Proof.
  intros Hb Hin.
  pose proof (build_decl_ok _ _ _ _ Hb) as H1.
  pose proof (build_decl_text _ _ _ _ Hb) as H2.
  pose proof (build_source_ok _ _ _ _ Hb) as H3.
  rewrite Forall_forall in H1, H2, H3.
  specialize (H1 _ Hin). specialize (H2 _ Hin). specialize (H3 _ Hin).
  unfold decl_ok in H1. unfold decl_text_ok in H2. unfold source_ok in H3.
  simpl in *. destruct H2 as [H2 _].
  split; [done|]. split; [done|]. intros Hc.
  destruct H3 as [H3|H3]; [done|congruence].
Qed.

(** X8 on the cycle example: the root is declared, its cycle-marked
    child is not. *)
Lemma declared_nodes_are_expanded_nodes_witness :
  build_lines 2 cycle_heap (VRef 4) = Ret cycle_lines ∧
  reach cycle_heap (VRef 4) (VRef 4) ∧ has_id cycle_heap (VRef 4) = true ∧
  (cycle_marked cycle_heap (VRef 4) = true → VRef 4 = VRef 4).
Proof.
  split; [vm_compute; reflexivity|].
  apply (declared_nodes_are_expanded_nodes 2 cycle_heap (VRef 4) cycle_lines
           (VRef 4) ("P1[" +:+ dq +:+ "A" +:+ dq +:+ "]")).
  - vm_compute; reflexivity.
  - apply (bool_decide_eq_true_1 _). vm_compute; reflexivity.
Defined.

(** ** Cycles and parsed inputs *)

Lemma walk_into_cycle_never_returns σ root n :
  rtc (walk_edge σ) root n → tc (walk_edge σ) n n →
  ∀ fuel st, returns (walk fuel σ root st) = false.
Proof.
  induction 1 as [n|root c n Hrc Hcn IH]; intros Hcyc fuel st.
  - by apply walk_on_cycle_never_returns.
  - destruct fuel as [|fuel]; [done|].
    destruct (walk (S fuel) σ root st) as [st'| |] eqn:Hrun; [|done|done].
    destruct (walk_descends _ _ _ _ _ _ Hrun Hrc) as (s & s' & Hs).
    specialize (IH Hcyc fuel s). by rewrite Hs in IH.
Qed.

(** X9. Nothing but the [cycle] flag stops the recursion: if the edges
    [walk] expands lead from the root to a node that lies on a cycle of
    such edges, the builder returns for no amount of fuel. *)
Theorem build_never_returns_into_cycle σ root n fuel :
  rtc (walk_edge σ) root n →
  tc (walk_edge σ) n n →
  returns (buildMermaid fuel σ root) = false.
Proof.
  intros Hr Hc. unfold buildMermaid, build_lines.
  pose proof (walk_into_cycle_never_returns σ root n Hr Hc fuel init) as H.
  by destruct (walk fuel σ root init).
Qed.

Lemma walk_edge_check σ n c es :
  has_id σ n = true → children_of σ n = Ret es →
  bool_decide (c ∈ es) = true →
  has_id σ c = true → cycle_marked σ c = false →
  walk_edge σ n c.
Proof.
  intros Hn Hes Hc Hcid Hcy. split; [done|]. exists es.
  apply bool_decide_eq_true in Hc. done.
Qed.

(** X9 on a root that leads into a two-node cycle. *)
Lemma build_never_returns_into_cycle_witness :
  rtc (walk_edge lasso_heap) (VRef 4) (VRef 0) ∧
  tc (walk_edge lasso_heap) (VRef 0) (VRef 0) ∧
  returns (buildMermaid 50 lasso_heap (VRef 4)) = false.
Proof.
  assert (H40 : walk_edge lasso_heap (VRef 4) (VRef 0))
    by (apply (walk_edge_check _ _ _ [VNull; VRef 0]); vm_compute; reflexivity).
  assert (H02 : walk_edge lasso_heap (VRef 0) (VRef 2))
    by (apply (walk_edge_check _ _ _ [VRef 2]); vm_compute; reflexivity).
  assert (H20 : walk_edge lasso_heap (VRef 2) (VRef 0))
    by (apply (walk_edge_check _ _ _ [VRef 0]); vm_compute; reflexivity).
  assert (Hr : rtc (walk_edge lasso_heap) (VRef 4) (VRef 0))
    by (by apply rtc_once).
  assert (Hc : tc (walk_edge lasso_heap) (VRef 0) (VRef 0))
    by (eapply tc_l; [exact H02|by apply tc_once]).
  split; [exact Hr|]. split; [exact Hc|].
  apply (build_never_returns_into_cycle lasso_heap (VRef 4) (VRef 0) 50 Hr Hc).
Defined.

Lemma buildMermaid_no_throw σ fuel root :
  safe_heap σ → no_throw (buildMermaid fuel σ root).
Proof.
  intros Hsafe. unfold buildMermaid, build_lines.
  apply bind_no_throw; [|done]. apply bind_no_throw; [|done].
  by apply walk_no_throw.
Qed.

(** X10. On every parsed JSON value the builder has one definite
    result, a string or a [TypeError], reached with enough fuel and the
    same for any more; it is a string when, in every object of the
    parsed value, a truthy [children] property is an array, a
    [substitutes] property that is an array holds no [null], and there
    is no property [toString]. *)
Theorem parsed_input_has_a_result j :
  ∃ fuel0 r,
    r ≠ OutOfFuel ∧
    (∀ fuel, fuel0 ≤ fuel → build_json fuel j = r) ∧
    (safe_heap (load j).2 → ∃ s, r = Ret s).
Proof.
  destruct (load_ranked j) as [Hr [bound Hb]].
  exists (S bound), (build_json (S bound) j).
  unfold build_json. destruct (load j) as [v σ]. simpl in *.
  assert (Ht : buildMermaid (S bound) σ v ≠ OutOfFuel).
  { apply (buildMermaid_terminates σ (λ l, l) v (S bound) Hr). lia. }
  split; [done|]. split.
  - intros fuel Hf. by apply buildMermaid_mono.
  - intros Hsafe. pose proof (buildMermaid_no_throw σ (S bound) v Hsafe) as Hn.
    destruct (buildMermaid (S bound) σ v) as [s| |]; [by exists s|done|done].
Qed.

(** ** Where declarations stand *)




Lemma decl_names_ids σ ls :
  Forall (decl_text_ok σ) ls →
  decl_names σ ls = name_of_id σ <$> decl_ids σ ls.
Proof.
  induction 1 as [|l ls Hl Hls IH]; [done|].
  unfold decl_names, decl_ids in *. cbn [omap list_omap].
  unfold decl_text_ok in Hl.
  destruct (line_tag l) as [|n|n c]; [done| |done].
  rewrite fmap_cons, <- IH. f_equal. destruct Hl as [Hid _].
  apply has_id_true in Hid as (_ & i & Hi & _).
  unfold id, id_val, name_of_id. by rewrite Hi.
Qed.

(** X14. With integer ids no diagram node is declared twice: if every
    declared id is a number, the diagram identifiers of the declaration
    lines are pairwise distinct. *)
Theorem numeric_ids_declare_distinct_nodes fuel σ root ls :
  build_lines fuel σ root = Ret ls →
  (∀ i, i ∈ decl_ids σ ls → ∃ z, i = VNum z) →
  NoDup (decl_names σ ls).
Proof.
  intros Hb Hnum.
  rewrite (decl_names_ids σ ls (build_decl_text _ _ _ _ Hb)).
  apply NoDup_fmap_2_strong; [|by eapply build_decl_nodup].
  intros i j Hi Hj Heq.
  destruct (Hnum i Hi) as [a ->]. destruct (Hnum j Hj) as [b ->].
  unfold name_of_id in Heq. simpl in Heq.
  rewrite !append_cons, !append_nil in Heq. injection Heq as Heq.
  apply (inj pretty) in Heq. by subst.
Qed.

(** X14 on the two parents that share a child id. *)
Lemma numeric_ids_declare_distinct_nodes_witness :
  ∃ ls, build_lines 3 shared_id_heap (VRef 7) = Ret ls ∧
        decl_ids shared_id_heap ls = [VNum 1; VNum 2; VNum 4; VNum 3] ∧
        NoDup (decl_names shared_id_heap ls).
Proof.
  eexists. split; [vm_compute; reflexivity|].
  split; [vm_compute; reflexivity|].
  eapply (numeric_ids_declare_distinct_nodes 3 shared_id_heap (VRef 7)).
  - vm_compute; reflexivity.
  - intros i Hi. vm_compute in Hi.
    repeat (apply elem_of_cons in Hi as [->|Hi]; [by eexists|]).
    by apply elem_of_nil in Hi.
Defined.

(** ** [renderMermaidFromEndpoint] *)

(** X11. The graph element only ever receives the diagram of the
    response: after a run its content is what it was, or the definition
    [buildMermaid] returned for the fetched data, or the markup mermaid
    rendered for that definition.  And a run that delivers no
    definition leaves the graph element alone, leaves no rejection
    unhandled, and puts the message of the failure in the error element
    when there is one. *)
Theorem graph_shows_only_the_diagram fuel b p p' u :
  renderMermaidFromEndpoint fuel b p = Ret (p', u) →
  (graph p' = graph p ∨
   ∃ def, delivered fuel b = Some def ∧
          (graph p' = Text def ∨
           ∃ render svg, mermaid b = Some render ∧
                         render def = Rendered svg ∧
                         graph p' = Markup svg)) ∧
  (∀ m, failure fuel b = Some m →
        graph p' = graph p ∧ u = false ∧
        (err_found b = true → err p' = m)).
Proof.
  unfold renderMermaidFromEndpoint, delivered, failure, show_error.
  intros H. destruct b as [g e a mm]; simpl in *.
  destruct a as [x|[] status [x|j]]; simpl in H.
  - injection H as <- <-. split; [left; by destruct e|].
    intros m [= <-]. by destruct e.
  - injection H as <- <-. split; [left; by destruct e|].
    intros m [= <-]. by destruct e.
  - destruct (build_json fuel j) as [def| |] eqn:Hb; [| |done].
    + injection H as H. split; [|done].
      unfold show_definition, show_error, set_graph in H. simpl in H.
      destruct mm as [render|]; [destruct (render def) as [svg|x] eqn:Hr|];
        destruct g, e; simpl in H; injection H as <- <-; simpl;
        try (by left);
        right; exists def; (split; [done|]);
        first [by left | right; by exists render, svg].
    + injection H as <- <-. split; [left; by destruct e|].
      intros m [= <-]. by destruct e.
  - injection H as <- <-. split; [left; by destruct e|].
    intros m [= <-]. by destruct e.
  - injection H as <- <-. split; [left; by destruct e|].
    intros m [= <-]. by destruct e.
Qed.

(** X11 where mermaid fails: the graph falls back to the definition. *)
Lemma graph_shows_only_the_diagram_witness :
  renderMermaidFromEndpoint 2 failing_mermaid stale_page
  = Ret (Page (Text four_lines) (Message "Parse error"), false) ∧
  (graph (Page (Text four_lines) (Message "Parse error")) = graph stale_page ∨
   ∃ def, delivered 2 failing_mermaid = Some def ∧
          (graph (Page (Text four_lines) (Message "Parse error")) = Text def ∨
           ∃ render svg, mermaid failing_mermaid = Some render ∧
                         render def = Rendered svg ∧
                         graph (Page (Text four_lines) (Message "Parse error"))
                         = Markup svg)).
Proof.
  split; [vm_compute; reflexivity|].
  apply (graph_shows_only_the_diagram 2 failing_mermaid stale_page _ false).
  vm_compute; reflexivity.
Defined.

(** X12. A missing graph element is handled on one path only.  Without
    mermaid the [TypeError] of the write is caught and shown in the
    error element.  With mermaid it is raised inside the promise
    callbacks and left unhandled, and the error element stays empty.
    Where the graph element exists, no rejection is ever left
    unhandled. *)
Theorem missing_graph_element fuel b p p' u def :
  renderMermaidFromEndpoint fuel b p = Ret (p', u) →
  (graph_found b = true → u = false) ∧
  (graph_found b = false → delivered fuel b = Some def →
   graph p' = graph p ∧
   match mermaid b with
   | None => u = false ∧ (err_found b = true → err p' = TypeErrorMessage)
   | Some _ => u = true ∧ (err_found b = true → err p' = Message "")
   end).
Proof.
  unfold renderMermaidFromEndpoint, delivered, show_error.
  intros H. destruct b as [g e a mm]; simpl in *.
  destruct a as [x|[] status [x|j]]; simpl in H;
    try (injection H as <- <-; split; [done|]; by intros _ [=]).
  destruct (build_json fuel j) as [d| |] eqn:Hb; [| |done].
  - injection H as H. unfold show_definition, show_error, set_graph in H.
    simpl in H. split.
    + intros ->. destruct mm as [render|]; [destruct (render d)|];
        by injection H as <- <-.
    + intros -> [= <-].
      destruct mm as [render|]; [destruct (render d)|];
        destruct e; by injection H as <- <-.
  - injection H as <- <-. split; [done|]. by intros _ [=].
Qed.

(** X12 with and without mermaid. *)
Lemma missing_graph_element_witness :
  renderMermaidFromEndpoint 2 no_graph_with_mermaid stale_page
  = Ret (Page (Text "old") (Message ""), true) ∧
  renderMermaidFromEndpoint 2 no_graph_without_mermaid stale_page
  = Ret (Page (Text "old") TypeErrorMessage, false) ∧
  delivered 2 no_graph_with_mermaid = Some four_lines ∧
  (graph_found no_graph_with_mermaid = false →
   delivered 2 no_graph_with_mermaid = Some four_lines →
   graph (Page (Text "old") (Message "")) = graph stale_page ∧
   match mermaid no_graph_with_mermaid with
   | None => true = false ∧
             (err_found no_graph_with_mermaid = true →
              err (Page (Text "old") (Message "")) = TypeErrorMessage)
   | Some _ => true = true ∧
               (err_found no_graph_with_mermaid = true →
                err (Page (Text "old") (Message "")) = Message "")
   end).
Proof.
  split; [vm_compute; reflexivity|].
  split; [vm_compute; reflexivity|].
  split; [vm_compute; reflexivity|].
  apply (missing_graph_element 2 no_graph_with_mermaid stale_page
           (Page (Text "old") (Message "")) true four_lines).
  vm_compute; reflexivity.
Defined.

(** The [TypeError] that [buildMermaid] throws on a [null] substitute
    is caught: the graph keeps its content and the error element shows
    the error. *)
Example bad_data_is_reported :
  renderMermaidFromEndpoint 2 bad_data stale_page
  = Ret (Page (Text "old") TypeErrorMessage, false).
Proof. by vm_compute. Qed.
